(** * Credential store: a shallow embedding of [src/lib/db/db.ts]

    The development models [DatabaseManager], the IndexedDB-backed store of
    password entries, and proves the properties its specification states
    about listing, searching, adding, updating and deleting entries.

    Conventions of the embedding:
    - a JavaScript string value is a [string]; the string functions of the
      platform are taken as they are, through the class [Strings]: the UTF-16
      code units of a string, [toLowerCase] and [trim].  Nothing is assumed of
      the case mapping; of [trim] only that it strips the white space and
      line terminators of ECMAScript from both ends.  [includes] is the
      search for a sequence of code units;
    - an entry is a JavaScript object: a finite map from property names to
      values, a value being a string or [undefined], together with the two
      date properties [createdAt] and [updatedAt].  These two hold the output
      of [Date.prototype.toISOString], which [new Date(s).getTime()] inverts;
      each is represented by the instant it denotes, in milliseconds since
      the epoch;
    - the object store is a finite map from keys to objects, the key of an
      object being its [id] property (key path ['id']);
    - the clock readings ([new Date()], [Date.now()]) and the random suffix of
      the identifier are inputs of the operation that takes them;
    - the storage engine is healthy: [ensureInitialized] opens the database,
      and a request fails only where IndexedDB says it must (adding under a
      key in use, storing an object without key). *)

From Stdlib Require Import ZArith Ascii String Sorted Permutation.
From stdpp Require Import gmap strings list fin_maps sorting pretty.

Local Open Scope string_scope.
Local Open Scope Z_scope.

(** ** Strings *)

Module JsString.

(** The white space and line terminators of ECMAScript, by code unit: TAB,
    LF, VT, FF, CR, SPACE, NO-BREAK SPACE, the other space separators
    (U+1680, U+2000 to U+200A, U+202F, U+205F, U+3000), LINE and PARAGRAPH
    SEPARATOR and the byte order mark. *)
Definition isWhiteSpace (u : N) : bool :=
  (((9 <=? u) && (u <=? 13)) || (u =? 32) || (u =? 160) || (u =? 5760) ||
   ((8192 <=? u) && (u <=? 8202)) || (u =? 8232) || (u =? 8233) ||
   (u =? 8239) || (u =? 8287) || (u =? 12288) || (u =? 65279))%N.

(** The code units that [trim] leaves. *)
Fixpoint trimStartUnits (l : list N) : list N :=
  match l with
  | [] => []
  | u :: l' => if isWhiteSpace u then trimStartUnits l' else l
  end.

Fixpoint trimEndUnits (l : list N) : list N :=
  match l with
  | [] => []
  | u :: l' =>
      match trimEndUnits l' with
      | [] => if isWhiteSpace u then [] else [u]
      | r => u :: r
      end
  end.

Definition trimUnits (l : list N) : list N := trimEndUnits (trimStartUnits l).

(** [t] is at the start of [l]. *)
Fixpoint startsWithUnits (l t : list N) : bool :=
  match t, l with
  | [], _ => true
  | _ :: _, [] => false
  | c :: t', d :: l' => if (c =? d)%N then startsWithUnits l' t' else false
  end.

(** [t] occurs in [l] at some position. *)
Fixpoint includesUnits (l t : list N) : bool :=
  startsWithUnits l t ||
  match l with
  | [] => false
  | _ :: l' => includesUnits l' t
  end.

(** The string functions of the platform. *)
Class Strings := {
  (** the UTF-16 code units of a string value *)
  codeUnits : string → list N;
  (** [String.prototype.toLowerCase] *)
  toLowerCase : string → string;
  (** [String.prototype.trim] *)
  trim : string → string;
  (** only the empty string has no code unit *)
  codeUnits_empty : ∀ s, codeUnits s = [] ↔ s = "";
  (** [trim] strips the white space at both ends *)
  trim_codeUnits : ∀ s, codeUnits (trim s) = trimUnits (codeUnits s)
}.

(** Truthiness of a string: only the empty string is falsy. *)
Definition truthy (s : string) : bool :=
  match s with
  | EmptyString => false
  | String _ _ => true
  end.

(** [s.includes(t)]. *)
Definition includes `{Strings} (s t : string) : bool :=
  includesUnits (codeUnits s) (codeUnits t).

(** Every code unit of [s] is white space. *)
Definition allWhiteSpace `{Strings} (s : string) : bool :=
  forallb isWhiteSpace (codeUnits s).

End JsString.

Import JsString.

(** ** Objects *)

(** A JavaScript object whose properties hold strings or [undefined]
    ([None]), with the two date properties of an entry. *)
Record object := Obj {
  props : gmap string (option string);
  createdAt : option Z;
  updatedAt : option Z
}.

(** The object literal [{ id: v }]. *)
Definition objId (v : string) : object :=
  {| props := {[ "id" := Some v ]}; createdAt := None; updatedAt := None |}.

(** The object literal [{ [f]: v }] for a string [v]. *)
Definition objField (f v : string) : object :=
  {| props := {[ f := Some v ]}; createdAt := None; updatedAt := None |}.

(** The object literal [{ [f]: undefined }]. *)
Definition objUndefined (f : string) : object :=
  {| props := {[ f := None ]}; createdAt := None; updatedAt := None |}.

(** [{ ...a, ...b }]: the properties of [b] are laid over those of [a]. *)
Definition spread (a b : object) : object :=
  {| props := props b ∪ props a;
     createdAt := createdAt b ∪ createdAt a;
     updatedAt := updatedAt b ∪ updatedAt a |}.

(** [{ ...o, createdAt: t }] and [{ ...o, updatedAt: t }]. *)
Definition setCreatedAt (t : Z) (o : object) : object :=
  {| props := props o; createdAt := Some t; updatedAt := updatedAt o |}.

Definition setUpdatedAt (t : Z) (o : object) : object :=
  {| props := props o; createdAt := createdAt o; updatedAt := Some t |}.

(** The read [o.f] of a property: [None] when the property is missing or
    holds [undefined]. *)
Definition field (f : string) (o : object) : option string :=
  match props o !! f with
  | Some (Some v) => Some v
  | _ => None
  end.

(** ** The object store *)

(** Evaluation of the key path ['id'] on an object. *)
Definition keyOf (o : object) : option string := field "id" o.

Module Idb.

(** [store.getAll()]: the stored objects in ascending order of key. *)
Definition getAll (st : gmap string object) : list object :=
  (merge_sort (λ a b : string * object, String.le a.1 b.1) (map_to_list st)).*2.

(** [store.get(key)]. *)
Definition get (key : string) (st : gmap string object) : option object :=
  st !! key.

Inductive result :=
| Success (st : gmap string object)
| ConstraintError                    (* the request's error event *)
| DataErrorThrown.                   (* exception thrown by the call *)

(** [store.add(o)]: refuses a key that is in use. *)
Definition add (o : object) (st : gmap string object) : result :=
  match keyOf o with
  | None => DataErrorThrown
  | Some k =>
      match st !! k with
      | Some _ => ConstraintError
      | None => Success (<[k := o]> st)
      end
  end.

(** [store.put(o)]: inserts or replaces. *)
Definition put (o : object) (st : gmap string object) : result :=
  match keyOf o with
  | None => DataErrorThrown
  | Some k => Success (<[k := o]> st)
  end.

(** [store.delete(key)]. *)
Definition delete (key : string) (st : gmap string object) : gmap string object :=
  base.delete key st.

End Idb.

(** ** Array.prototype.sort *)

Section ArraySort.
Context {A : Type} (compareFn : A → A → Z).

(** [x] goes in front of the first element it does not have to follow. *)
Fixpoint insertSorted (x : A) (l : list A) : list A :=
  match l with
  | [] => [x]
  | y :: l' => if compareFn x y <=? 0 then x :: y :: l' else y :: insertSorted x l'
  end.

(** The stable sort of [l] by [compareFn]. *)
Fixpoint sort (l : list A) : list A :=
  match l with
  | [] => []
  | x :: l' => insertSorted x (sort l')
  end.
End ArraySort.

(** ** DatabaseManager *)

(** The messages of the rejections that the model can produce. *)
Inductive error :=
| CannotAdd        (* 'Không thể thêm mật khẩu mới' *)
| NotFound         (* 'Không tìm thấy mật khẩu' *)
| DataError.       (* the DOMException of a store call *)

(** How the promise of an operation ends. [Pending]: an exception escaped
    from a request handler, the promise is never settled. *)
Inductive outcome (A : Type) :=
| Resolved (a : A)
| Rejected (e : error)
| Pending.
Arguments Resolved {A} a.
Arguments Rejected {A} e.
Arguments Pending {A}.

(** [generateId]: [ms] is the reading of [Date.now()], [suffix] is
    [Math.random().toString(36).substr(2, 9)]. *)
Definition generateId (ms : Z) (suffix : string) : string :=
  "pwd_" +:+ pretty ms +:+ "_" +:+ suffix.

(** [new Date(p.updatedAt || 0).getTime()]. *)
Definition updatedTime (p : object) : Z := default 0 (updatedAt p).

(** The comparison function of both sorts: most recently updated first. *)
Definition byUpdatedAtDesc (a b : object) : Z := updatedTime b - updatedTime a.

Definition getAllPasswords (st : gmap string object) : outcome (list object) :=
  Resolved (sort byUpdatedAtDesc (Idb.getAll st)).

Section Search.
Context `{Strings}.

(** The predicate of the filter; [None] when a property read is [undefined]
    and the call of [toLowerCase] on it throws. *)
Definition matchesTerm (searchTerm : string) (p : object) : option bool :=
  match field "service" p with
  | None => None
  | Some service =>
      if includes (toLowerCase service) searchTerm then Some true
      else match field "username" p with
           | None => None
           | Some username => Some (includes (toLowerCase username) searchTerm)
           end
  end.

(** [Array.prototype.filter] with a predicate that may throw. *)
Fixpoint filterArray {A} (f : A → option bool) (l : list A) : option (list A) :=
  match l with
  | [] => Some []
  | x :: l' =>
      match f x with
      | None => None
      | Some b =>
          match filterArray f l' with
          | None => None
          | Some r => Some (if b then x :: r else r)
          end
      end
  end.

Definition searchPasswords (query : string) (st : gmap string object)
  : outcome (list object) :=
  if negb (truthy (trim query)) then getAllPasswords st
  else
    let allPasswords := Idb.getAll st in
    let searchTerm := toLowerCase query in
    match filterArray (matchesTerm searchTerm) allPasswords with
    | None => Pending
    | Some filtered => Resolved (sort byUpdatedAtDesc filtered)
    end.

End Search.

(** [now] is the reading of [new Date()], [idNow] the later reading of
    [Date.now()] inside [generateId]. *)
Definition addPassword (now idNow : Z) (suffix : string) (passwordData : object)
    (st : gmap string object) : outcome object * gmap string object :=
  let newPassword :=
    setUpdatedAt now (setCreatedAt now
      (spread (objId (generateId idNow suffix)) passwordData)) in
  match Idb.add newPassword st with
  | Idb.Success st' => (Resolved newPassword, st')
  | Idb.ConstraintError => (Rejected CannotAdd, st)
  | Idb.DataErrorThrown => (Rejected DataError, st)
  end.

Definition updatePassword (now : Z) (id : string) (updates : object)
    (st : gmap string object) : outcome object * gmap string object :=
  match Idb.get id st with
  | None => (Rejected NotFound, st)
  | Some existingPassword =>
      let updatedPassword := setUpdatedAt now (spread existingPassword updates) in
      match Idb.put updatedPassword st with
      | Idb.Success st' => (Resolved updatedPassword, st')
      | _ => (Pending, st)
      end
  end.

Definition deletePassword (id : string) (st : gmap string object)
  : outcome unit * gmap string object :=
  (Resolved (), Idb.delete id st).

(** ** Sequences of operations *)

Inductive request :=
| Add (now idNow : Z) (suffix : string) (passwordData : object)
| Update (now : Z) (id : string) (updates : object)
| Delete (id : string).

(** The store after one request, whatever its outcome. *)
Definition perform (r : request) (st : gmap string object) : gmap string object :=
  match r with
  | Add now idNow suffix passwordData => (addPassword now idNow suffix passwordData st).2
  | Update now id updates => (updatePassword now id updates st).2
  | Delete id => (deletePassword id st).2
  end.

(** The store after a sequence of requests, oldest first. *)
Definition run (rs : list request) (st : gmap string object) : gmap string object :=
  foldl (λ s r, perform r s) st rs.

(** The reading of [new Date()] that a request turns into a timestamp. *)
Definition clockReading (r : request) : option Z :=
  match r with
  | Add now _ _ _ => Some now
  | Update now _ _ => Some now
  | Delete _ => None
  end.

(** The clock does not run backwards along a sequence of requests. *)
Definition clockMonotone (rs : list request) : Prop :=
  StronglySorted Z.le (omap clockReading rs).

(** ** Predicates of the statements *)

(** The properties that the store assigns. *)
Definition assigned (f : string) : Prop :=
  f = "id" ∨ f = "createdAt" ∨ f = "updatedAt".

(** Modelled from the spec: the payload types [PasswordInsert] and
    [Partial<PasswordInsert>] of [lib/types/models], which the sources do not
    include.  An entry is an identifier, a service name, a user name, a
    secret, optional metadata and the two timestamps; the store assigns the
    identifier and the timestamps, the payload of [updatePassword] carries
    any of the other properties, each with a string or with [undefined]. *)
Definition isPartialInsert (updates : object) : Prop :=
  (∀ f, assigned f → props updates !! f = None) ∧
  createdAt updates = None ∧ updatedAt updates = None.

(** Modelled from the spec: the payload of [addPassword] also names the
    service and the user, with strings. *)
Definition isPasswordInsert (passwordData : object) : Prop :=
  isPartialInsert passwordData ∧
  is_Some (field "service" passwordData) ∧
  is_Some (field "username" passwordData).

(** The payload of a request has the type that the operation declares. *)
Definition validRequest (r : request) : Prop :=
  match r with
  | Add _ _ _ passwordData => isPasswordInsert passwordData
  | Update _ _ updates => isPartialInsert updates
  | Delete _ => True
  end.

(** The payload does not put [undefined] in the place of the service or of
    the user name. *)
Definition keepsSearchFields (updates : object) : Prop :=
  props updates !! "service" ≠ Some None ∧
  props updates !! "username" ≠ Some None.

Definition keepsSearchFieldsRequest (r : request) : Prop :=
  match r with
  | Update _ _ updates => keepsSearchFields updates
  | _ => True
  end.

(** The properties that [searchPasswords] reads hold strings. *)
Definition searchable (p : object) : Prop :=
  is_Some (field "service" p) ∧ is_Some (field "username" p).

Definition searchableStore (st : gmap string object) : Prop :=
  map_Forall (λ _ p, searchable p) st.

(** An object is stored under the key that its key path yields. *)
Definition keyed (st : gmap string object) : Prop :=
  map_Forall (λ k p, keyOf p = Some k) st.

#[global] Instance searchable_dec (p : object) : Decision (searchable p).
Proof. unfold searchable. apply _. Defined.

#[global] Instance searchableStore_dec (st : gmap string object) :
  Decision (searchableStore st).
Proof. unfold searchableStore. apply _. Defined.

#[global] Instance keyed_dec (st : gmap string object) : Decision (keyed st).
Proof. unfold keyed. apply _. Defined.

(** Both timestamps are set. *)
Definition stamped (p : object) : Prop :=
  is_Some (createdAt p) ∧ is_Some (updatedAt p).

(** The stored objects, one for each key. *)
Definition records (st : gmap string object) : list object := (map_to_list st).*2.

(** Most recently updated first. *)
Definition newestFirst (l : list object) : Prop :=
  StronglySorted (λ a b, updatedTime b ≤ updatedTime a) l.

(** Every identifier of the store was generated from another clock reading
    or another random suffix than [ms] and [suffix]. *)
Definition generatedApart (ms : Z) (suffix : string) (st : gmap string object)
  : Prop :=
  ∀ k, is_Some (st !! k) →
       ∃ ms' suffix', k = generateId ms' suffix' ∧ (ms', suffix') ≠ (ms, suffix).

Section SearchPredicates.
Context `{Strings}.

(** [s] contains [q] as a case-insensitive substring: with the case of both
    folded by [toLowerCase], the code units of [q] occur in [s]. *)
Definition containsCI (s q : string) : Prop :=
  ∃ pre post : list N,
    codeUnits (toLowerCase s) = (pre ++ codeUnits (toLowerCase q) ++ post)%list.

(** The service or the user name of [p] contains [q], case-insensitively. *)
Definition matchesCI (q : string) (p : object) : Prop :=
  (∃ s, field "service" p = Some s ∧ containsCI s q) ∨
  (∃ u, field "username" p = Some u ∧ containsCI u q).

(** The filter of [searchPasswords] on an entry that has both properties. *)
Definition matchesBool (searchTerm : string) (p : object) : bool :=
  includes (toLowerCase (default "" (field "service" p))) searchTerm ||
  includes (toLowerCase (default "" (field "username" p))) searchTerm.

End SearchPredicates.

(** ** An instance of the string functions *)

(** The strings over the code units below 256: a character is its code
    unit.  [toLowerCase] folds the letters A to Z and U+00C0 to U+00DE (less
    the multiplication sign), which is the case mapping of these code
    units. *)
Definition latin1Lower (c : ascii) : ascii :=
  let n := N_of_ascii c in
  if (((65 <=? n) && (n <=? 90)) ||
      ((192 <=? n) && (n <=? 222) && negb (n =? 215)))%N
  then ascii_of_N (n + 32) else c.

Fixpoint latin1ToLowerCase (s : string) : string :=
  match s with
  | EmptyString => EmptyString
  | String c s' => String (latin1Lower c) (latin1ToLowerCase s')
  end.

Fixpoint latin1Units (s : string) : list N :=
  match s with
  | EmptyString => []
  | String c s' => N_of_ascii c :: latin1Units s'
  end.

Fixpoint latin1TrimStart (s : string) : string :=
  match s with
  | EmptyString => EmptyString
  | String c s' => if isWhiteSpace (N_of_ascii c) then latin1TrimStart s' else s
  end.

Fixpoint latin1TrimEnd (s : string) : string :=
  match s with
  | EmptyString => EmptyString
  | String c s' =>
      match latin1TrimEnd s' with
      | EmptyString =>
          if isWhiteSpace (N_of_ascii c) then EmptyString else String c EmptyString
      | r => String c r
      end
  end.

Definition latin1Trim (s : string) : string := latin1TrimEnd (latin1TrimStart s).

Definition latin1 : Strings.
Proof.
  refine {| codeUnits := latin1Units;
            toLowerCase := latin1ToLowerCase;
            trim := latin1Trim |}.
  - intros [|c s]; simpl; split; intros E; try done.
  - assert (∀ s, latin1Units (latin1TrimStart s) = trimStartUnits (latin1Units s))
      as Hstart.
    { induction s as [|c s IH]; simpl; [done|].
      by destruct (isWhiteSpace (N_of_ascii c)). }
    assert (∀ s, latin1Units (latin1TrimEnd s) = trimEndUnits (latin1Units s))
      as Hend.
    { induction s as [|c s IH]; simpl; [done|].
      rewrite <- IH. destruct (latin1TrimEnd s) as [|d r]; simpl; [|done].
      by destruct (isWhiteSpace (N_of_ascii c)). }
    intros s. unfold latin1Trim, trimUnits. by rewrite Hend, Hstart.
Defined.

(** The string of one code unit. *)
Definition unitString (u : N) : string := String (ascii_of_N u) EmptyString.

(** ** Sample data *)

(** The properties of an object literal that holds strings only. *)
Definition strings (m : gmap string string) : gmap string (option string) :=
  Some <$> m.

Definition entry (id service username : string) (t : Z) : object :=
  {| props := strings {[ "id" := id; "service" := service; "username" := username ]};
     createdAt := Some t; updatedAt := Some t |}.

Definition insertData (service username password : string) : object :=
  {| props := strings {[ "service" := service; "username" := username;
                         "password" := password ]};
     createdAt := None; updatedAt := None |}.

Definition sampleStore : gmap string object :=
  <["pwd_3_c" := entry "pwd_3_c" "Twitter" "carol" 30]>
    (<["pwd_2_b" := entry "pwd_2_b" "gitlab" "bob" 50]>
      (<["pwd_1_a" := entry "pwd_1_a" "GitHub" "alice" 40]> ∅)).

Definition freshEntry : object :=
  {| props := strings {[ "id" := "pwd_1000_k3j2h1g0f"; "service" := "GitHub";
                         "username" := "alice"; "password" := "s3cret" ]};
     createdAt := Some 1000; updatedAt := Some 1000 |}.

Definition changedEntry : object :=
  {| props := strings {[ "id" := "pwd_1000_k3j2h1g0f"; "service" := "GitHub";
                         "username" := "alice"; "password" := "n3w" ]};
     createdAt := Some 1000; updatedAt := Some 1000 |}.

(** Entries with letters beyond ASCII: the service [ÉCOLE] (U+00C9). *)
Definition accentedStore : gmap string object :=
  <["pwd_2_b" := entry "pwd_2_b" (unitString 201 +:+ "COLE") "bob" 50]>
    (<["pwd_1_a" := entry "pwd_1_a" "GitHub" "alice" 40]> ∅).

(** An add, then an update of the declared type that puts [undefined] in
    the place of the service. *)
Definition undefinedService : list request :=
  [Add 10 10 "a" (insertData "GitHub" "alice" "x");
   Update 11 "pwd_10_a" (objUndefined "service")].

Definition spacedStore : gmap string object :=
  <["pwd_2_b" := entry "pwd_2_b" "my git" "bob" 50]>
    (<["pwd_1_a" := entry "pwd_1_a" "git" "alice" 40]> ∅).

(** ** Statistics and reset *)

(** The result of [getStats]. *)
Record stats := Stats {
  total : nat;
  hasPasswords : bool
}.

Definition getStats (st : gmap string object) : outcome stats :=
  match getAllPasswords st with
  | Resolved passwords =>
      Resolved {| total := length passwords;
                  hasPasswords := bool_decide (0 < length passwords)%nat |}
  | Rejected e => Rejected e
  | Pending => Pending
  end.

(** [clearAll]: the request is [store.clear()]. *)
Definition clearAll (st : gmap string object) : outcome unit * gmap string object :=
  (Resolved (), ∅).

(** ** The database behind the store *)

Module Manager.

(** An object store: its key path, its indexes (name, key path and
    uniqueness) and its records. *)
Record objectStore := ObjectStore {
  keyPath : string;
  indexes : gmap string (string * bool);
  contents : gmap string object
}.

Record database := Database {
  version : Z;
  objectStores : gmap string objectStore
}.

(** The databases of the origin ([indexedDB]) and the field [this.db], the
    connection, which is the name of the database it is open on. *)
Record state := State {
  indexedDB : gmap string database;
  db : option string
}.

Definition dbName : string := "memorySafeGuardDB".
Definition dbVersion : Z := 1.

(** The rejections of the operations: the message of [initialize],
    the exception of [db.transaction] on a store that does not exist, and
    the rejections of the requests on the store. *)
Inductive failure :=
| CannotOpen                 (* 'Không thể mở IndexedDB' *)
| NotFoundError              (* DOMException of [transaction] *)
| RequestError (e : error).

Inductive promise (A : Type) :=
| Fulfilled (a : A)
| Failed (f : failure)
| Unsettled.
Arguments Fulfilled {A} a.
Arguments Failed {A} f.
Arguments Unsettled {A}.

Definition settle {A} (o : outcome A) : promise A :=
  match o with
  | Resolved a => Fulfilled a
  | Rejected e => Failed (RequestError e)
  | Pending => Unsettled
  end.

Inductive openResult :=
| Opened (idb : gmap string database)
| OpenError.

(** [indexedDB.open(name, v)] with the handler [upgrade] of
    [upgradeneeded]: a database that does not exist has version 0; a
    version above [v] is a [VersionError]; [refused] is the engine declining
    to open. *)
Definition open (refused : bool) (name : string) (v : Z)
    (upgrade : database → database) (idb : gmap string database) : openResult :=
  if refused then OpenError
  else
    let d := default {| version := 0; objectStores := ∅ |} (idb !! name) in
    if v <? version d then OpenError
    else if version d <? v then
      Opened (<[name := {| version := v; objectStores := objectStores (upgrade d) |}]> idb)
    else Opened idb.

(** The calls of the operations of the manager. *)
Inductive call :=
| GetAll
| Search (query : string)
| Add (now idNow : Z) (suffix : string) (passwordData : object)
| Update (now : Z) (id : string) (updates : object)
| Delete (id : string)
| GetStats
| ClearAll.

Definition status {A} (p : promise A) : promise unit :=
  match p with
  | Fulfilled _ => Fulfilled ()
  | Failed f => Failed f
  | Unsettled => Unsettled
  end.

Section WithStoreName.
Context `{Strings}.

(** [DATABASE.TABLE_NAME] of [lib/constants/app-constants]. *)
Variable storeName : string.

(** The handler [request.onupgradeneeded]. *)
Definition onupgradeneeded (d : database) : database :=
  if decide (is_Some (objectStores d !! storeName)) then d
  else
    {| version := version d;
       objectStores :=
         <[storeName :=
             {| keyPath := "id";
                indexes := {[ "service" := ("service", false);
                              "username" := ("username", false);
                              "updatedAt" := ("updatedAt", false) ]};
                contents := ∅ |}]> (objectStores d) |}.

Definition initialize (refused : bool) (s : state) : promise unit * state :=
  match open refused dbName dbVersion onupgradeneeded (indexedDB s) with
  | OpenError => (Failed CannotOpen, s)
  | Opened idb => (Fulfilled (), {| indexedDB := idb; db := Some dbName |})
  end.

Definition ensureInitialized (refused : bool) (s : state) : promise unit * state :=
  match db s with
  | None => initialize refused s
  | Some _ => (Fulfilled (), s)
  end.

(** [this.db!.transaction([storeName], mode).objectStore(storeName)]: the
    records of the store, if the database of the connection has it. *)
Definition objectStoreOf (s : state) : option (gmap string object) :=
  name ← db s; d ← indexedDB s !! name; os ← objectStores d !! storeName;
  Some (contents os).

(** The state once the transaction has committed the records [c]. *)
Definition commit (c : gmap string object) (s : state) : state :=
  match db s with
  | None => s
  | Some name =>
      {| indexedDB :=
           alter (λ d, {| version := version d;
                          objectStores :=
                            alter (λ os, {| keyPath := keyPath os;
                                            indexes := indexes os;
                                            contents := c |})
                                  storeName (objectStores d) |})
                 name (indexedDB s);
         db := db s |}
  end.

(** The frame of every operation: [await this.ensureInitialized()], then a
    transaction on the store in which [request] runs. *)
Definition onStore {A} (refused : bool)
    (request : gmap string object → outcome A * gmap string object)
    (s : state) : promise A * state :=
  match ensureInitialized refused s with
  | (Fulfilled _, s1) =>
      match objectStoreOf s1 with
      | None => (Failed NotFoundError, s1)
      | Some c => (settle (request c).1, commit (request c).2 s1)
      end
  | (Failed f, s1) => (Failed f, s1)
  | (Unsettled, s1) => (Unsettled, s1)
  end.

Definition getAllPasswords (refused : bool) (s : state)
  : promise (list object) * state :=
  onStore refused (λ c, (getAllPasswords c, c)) s.

Definition searchPasswords (refused : bool) (query : string) (s : state)
  : promise (list object) * state :=
  if negb (truthy (trim query)) then getAllPasswords refused s
  else onStore refused (λ c, (searchPasswords query c, c)) s.

Definition addPassword (refused : bool) (now idNow : Z) (suffix : string)
    (passwordData : object) (s : state) : promise object * state :=
  onStore refused (addPassword now idNow suffix passwordData) s.

Definition updatePassword (refused : bool) (now : Z) (id : string)
    (updates : object) (s : state) : promise object * state :=
  onStore refused (updatePassword now id updates) s.

Definition deletePassword (refused : bool) (id : string) (s : state)
  : promise unit * state :=
  onStore refused (deletePassword id) s.

Definition getStats (refused : bool) (s : state) : promise stats * state :=
  match getAllPasswords refused s with
  | (Fulfilled passwords, s1) =>
      (Fulfilled {| total := length passwords;
                    hasPasswords := bool_decide (0 < length passwords)%nat |}, s1)
  | (Failed f, s1) => (Failed f, s1)
  | (Unsettled, s1) => (Unsettled, s1)
  end.

Definition clearAll (refused : bool) (s : state) : promise unit * state :=
  onStore refused clearAll s.

(** From [s] to [s'] nothing has changed but the records of the store
    (and, where it was missing, the store itself): the other databases,
    the other object stores, and the key path and the indexes of the store
    are the same. *)
Definition sameElsewhere (s s' : state) : Prop :=
  (∀ name, name ≠ dbName → indexedDB s' !! name = indexedDB s !! name) ∧
  (∀ d, indexedDB s !! dbName = Some d →
     ∃ d', indexedDB s' !! dbName = Some d' ∧
           (∀ other, other ≠ storeName →
                     objectStores d' !! other = objectStores d !! other) ∧
           (∀ os, objectStores d !! storeName = Some os →
                  ∃ os', objectStores d' !! storeName = Some os' ∧
                         keyPath os' = keyPath os ∧ indexes os' = indexes os)).

(** A call of any of the operations: how its promise ends, without the
    value, and the state it leaves. *)
Definition perform (refused : bool) (c : call) (s : state) : promise unit * state :=
  match c with
  | GetAll => let r := getAllPasswords refused s in (status r.1, r.2)
  | Search query => let r := searchPasswords refused query s in (status r.1, r.2)
  | Add now idNow suffix passwordData =>
      let r := addPassword refused now idNow suffix passwordData s in (status r.1, r.2)
  | Update now id updates =>
      let r := updatePassword refused now id updates s in (status r.1, r.2)
  | Delete id => let r := deletePassword refused id s in (status r.1, r.2)
  | GetStats => let r := getStats refused s in (status r.1, r.2)
  | ClearAll => let r := clearAll refused s in (status r.1, r.2)
  end.

End WithStoreName.

(** The class: the static field [instance] holds a reference to the one
    object; [constructed] counts the calls of the constructor and is the
    reference of the next object. *)
Record classState := ClassState {
  instance : option nat;
  constructed : nat
}.

Definition getInstance (cs : classState) : nat * classState :=
  match instance cs with
  | Some r => (r, cs)
  | None => (constructed cs,
             {| instance := Some (constructed cs); constructed := S (constructed cs) |})
  end.

(** The references that successive calls of [getInstance] return. *)
Fixpoint getInstances (n : nat) (cs : classState) : list nat * classState :=
  match n with
  | O => ([], cs)
  | S n' =>
      let '(r, cs1) := getInstance cs in
      let '(rs, cs2) := getInstances n' cs1 in
      (r :: rs, cs2)
  end.

(** A browser that has never run the application, and one that has stored
    [sampleStore]. *)
Definition freshState : state := {| indexedDB := ∅; db := None |}.

Definition storedState (storeName : string) (c : gmap string object) (conn : option string)
  : state :=
  {| indexedDB :=
       {[ dbName :=
            {| version := 1;
               objectStores :=
                 {[ storeName :=
                      {| keyPath := "id";
                         indexes := {[ "service" := ("service", false);
                                       "username" := ("username", false);
                                       "updatedAt" := ("updatedAt", false) ]};
                         contents := c |} ]} |} ]};
     db := conn |}.

End Manager.

(** ** The list page *)

Module Index.

Section WithTiming.

(** [TIMING.ANIMATION_STAGGER_DELAY] and [TIMING.MAX_ANIMATION_DELAY] of
    [lib/constants/app-constants]. *)
Variables ANIMATION_STAGGER_DELAY MAX_ANIMATION_DELAY : Z.

(** [Math.min(index * ANIMATION_STAGGER_DELAY, MAX_ANIMATION_DELAY)]. *)
Definition delayAt (index : nat) : Z :=
  Z.min (Z.of_nat index * ANIMATION_STAGGER_DELAY) MAX_ANIMATION_DELAY.

(** The memoised [animationDelays]. *)
Definition animationDelays {A} (passwords : list A) : list string :=
  imap (λ index _, pretty (delayAt index) +:+ "ms") passwords.

End WithTiming.

End Index.

(** A character of the decimal notation of an integer. *)
Definition isDigitOrSign (c : ascii) : bool :=
  let n := N_of_ascii c in
  (((48 <=? n) && (n <=? 57)) || (n =? 45))%N.

Fixpoint allDigitsOrSign (s : string) : bool :=
  match s with
  | EmptyString => true
  | String c s' => isDigitOrSign c && allDigitsOrSign s'
  end.

(** The order of [getAllPasswords]: later [updatedAt] first and, among
    equal ones, the smaller key first. *)
Definition listingOrder (a b : string * object) : Prop :=
  updatedTime b.2 < updatedTime a.2 ∨
  (updatedTime a.2 = updatedTime b.2 ∧ String.le a.1 b.1).

(** * Properties *)

(** Closes an equation between closed terms by evaluation. *)
Ltac vm_refl :=
  lazymatch goal with
  | |- @eq ?T _ ?b => vm_cast_no_check (@eq_refl T b)
  end.

(** ** Strings *)

Lemma startsWithUnits_spec (l t : list N) :
  startsWithUnits l t = true ↔ ∃ post, l = (t ++ post)%list.
Proof.
  revert l. induction t as [|c t IH]; intros l.
  - split; [by exists l | by destruct l].
  - destruct l as [|d l]; simpl.
    + split; [done | by intros [post ?]].
    + destruct (N.eqb_spec c d) as [->|Hne].
      * rewrite IH. split; intros [post E]; exists post; simpl in *; congruence.
      * split; [done | intros [post E]; simpl in E; congruence].
Qed.

Lemma includesUnits_spec (l t : list N) :
  includesUnits l t = true ↔ ∃ pre post, l = (pre ++ t ++ post)%list.
Proof.
  induction l as [|d l IH].
  - change (includesUnits [] t) with (startsWithUnits [] t || false).
    rewrite orb_true_iff, startsWithUnits_spec. split.
    + intros [[post E]|?]; [|done]. by exists [], post.
    + intros (pre & post & E). left. destruct pre; [by exists post | done].
  - change (includesUnits (d :: l) t)
      with (startsWithUnits (d :: l) t || includesUnits l t).
    rewrite orb_true_iff, startsWithUnits_spec, IH. split.
    + intros [[post E]|(pre & post & E)].
      * by exists [], post.
      * exists (d :: pre), post. simpl. by rewrite E.
    + intros (pre & post & E). destruct pre as [|e pre]; simpl in E.
      * left. by exists post.
      * right. exists pre, post. congruence.
Qed.

Lemma trimStartUnits_blank (l : list N) :
  trimStartUnits l = [] ↔ forallb isWhiteSpace l = true.
Proof.
  induction l as [|u l IH]; simpl; [done|].
  destruct (isWhiteSpace u); simpl; [done | split; discriminate].
Qed.

Lemma trimEndUnits_blank (l : list N) :
  trimEndUnits l = [] ↔ forallb isWhiteSpace l = true.
Proof.
  induction l as [|u l IH]; simpl; [done|].
  destruct (trimEndUnits l) eqn:E.
  - destruct (isWhiteSpace u); simpl; [tauto | split; [discriminate | done]].
  - split; [discriminate|]. intros [_ Hl]%andb_true_iff.
    apply IH in Hl. discriminate.
Qed.

(** What [trimStartUnits] leaves is blank only if it is empty. *)
Lemma trimStartUnits_forallb (l : list N) :
  forallb isWhiteSpace (trimStartUnits l) = true → trimStartUnits l = [].
Proof.
  induction l as [|u l IH]; simpl; [done|].
  destruct (isWhiteSpace u) eqn:E; [done|]. simpl. by rewrite E.
Qed.

Lemma trimUnits_blank (l : list N) :
  trimUnits l = [] ↔ forallb isWhiteSpace l = true.
Proof.
  unfold trimUnits. rewrite trimEndUnits_blank. split.
  - intros Hl. by apply trimStartUnits_blank, trimStartUnits_forallb.
  - intros Hl. apply trimStartUnits_blank in Hl. by rewrite Hl.
Qed.

Section StringFacts.
Context `{Strings}.

(** The test of [searchPasswords] on one property is case-insensitive
    containment. *)
Lemma includes_toLowerCase (s q : string) :
  includes (toLowerCase s) (toLowerCase q) = true ↔ containsCI s q.
Proof. apply includesUnits_spec. Qed.

(** [trim] leaves nothing exactly of the strings made of white space. *)
Lemma trim_blank (s : string) :
  trim s = "" ↔ allWhiteSpace s = true.
Proof.
  unfold allWhiteSpace.
  by rewrite <- codeUnits_empty, trim_codeUnits, trimUnits_blank.
Qed.

(** The guard [!query.trim()] holds exactly for the blank queries. *)
Lemma blank_guard (q : string) :
  negb (truthy (trim q)) = allWhiteSpace q.
Proof.
  destruct (allWhiteSpace q) eqn:E.
  - apply trim_blank in E. by rewrite E.
  - destruct (trim q) eqn:T; [|done].
    apply trim_blank in T. congruence.
Qed.

Lemma allWhiteSpace_empty : allWhiteSpace "" = true.
Proof. apply trim_blank. apply codeUnits_empty. rewrite trim_codeUnits.
  by rewrite (proj2 (codeUnits_empty "") eq_refl). Qed.

End StringFacts.

(** ** Sorting *)

Section SortFacts.
Context {A : Type} (compareFn : A → A → Z).

Lemma insertSorted_Permutation (x : A) (l : list A) :
  insertSorted compareFn x l ≡ₚ x :: l.
Proof.
  induction l as [|y l IH]; simpl; [done|].
  destruct (compareFn x y <=? 0); [done|].
  rewrite IH. apply Permutation_swap.
Qed.

Lemma sort_Permutation (l : list A) : sort compareFn l ≡ₚ l.
Proof.
  induction l as [|x l IH]; simpl; [done|].
  by rewrite insertSorted_Permutation, IH.
Qed.

Lemma elem_of_sort (x : A) (l : list A) : x ∈ sort compareFn l ↔ x ∈ l.
Proof. by rewrite sort_Permutation. Qed.

(** [sort] orders by any relation that follows the sign of [compareFn]. *)
Context (R : A → A → Prop).
Hypothesis compareFn_le : ∀ x y, compareFn x y ≤ 0 → R x y.
Hypothesis compareFn_gt : ∀ x y, 0 < compareFn x y → R y x.

Lemma insertSorted_Sorted (x : A) (l : list A) :
  Sorted R l → Sorted R (insertSorted compareFn x l).
Proof.
  induction l as [|y l IH]; intros Hl; simpl.
  - by repeat constructor.
  - destruct (Z.leb_spec (compareFn x y) 0) as [Hxy|Hxy].
    + constructor; [done|]. constructor. by apply compareFn_le.
    + apply Sorted_inv in Hl as [Hl Hy]. constructor; [by apply IH|].
      destruct l as [|z l]; simpl.
      * constructor. by apply compareFn_gt.
      * destruct (compareFn x z <=? 0); constructor.
        -- by apply compareFn_gt.
        -- by apply HdRel_inv in Hy.
Qed.

Lemma sort_Sorted (l : list A) : Sorted R (sort compareFn l).
Proof.
  induction l as [|x l IH]; simpl; [constructor|].
  by apply insertSorted_Sorted.
Qed.

End SortFacts.

Lemma sort_newestFirst (l : list object) :
  newestFirst (sort byUpdatedAtDesc l).
Proof.
  unfold newestFirst.
  assert (Transitive (λ a b : object, updatedTime b ≤ updatedTime a)) as HT.
  { intros a b c. lia. }
  apply Sorted_StronglySorted; [done|].
  apply sort_Sorted; unfold byUpdatedAtDesc; intros a b; lia.
Qed.

(** ** The object store *)

Lemma getAll_Permutation (st : gmap string object) :
  Idb.getAll st ≡ₚ records st.
Proof.
  unfold Idb.getAll, records. by rewrite merge_sort_Permutation.
Qed.

Lemma elem_of_records (st : gmap string object) (p : object) :
  p ∈ records st ↔ ∃ k, st !! k = Some p.
Proof.
  unfold records. rewrite list_elem_of_fmap. split.
  - intros ([k q] & -> & H). exists k. by apply elem_of_map_to_list in H.
  - intros [k H]. exists (k, p). split; [done|]. by apply elem_of_map_to_list.
Qed.

Lemma elem_of_getAll (st : gmap string object) (p : object) :
  p ∈ Idb.getAll st ↔ ∃ k, st !! k = Some p.
Proof. by rewrite getAll_Permutation, elem_of_records. Qed.

Lemma records_length (st : gmap string object) : length (records st) = size st.
Proof. unfold records. by rewrite length_fmap, length_map_to_list. Qed.

Lemma getAll_empty : Idb.getAll ∅ = [].
Proof.
  apply Permutation_nil_r. rewrite getAll_Permutation.
  unfold records. by rewrite map_to_list_empty.
Qed.

(** ** The filter of the search *)

Section SearchFacts.
Context `{Strings}.


Lemma matchesTerm_searchable (term : string) (p : object) :
  searchable p → matchesTerm term p = Some (matchesBool term p).
Proof.
  intros [[s Hs] [u Hu]]. unfold matchesTerm, matchesBool.
  rewrite Hs, Hu. simpl. by destruct (includes (toLowerCase s) term).
Qed.

(** Where the predicate of the filter does not throw, it tells whether the
    entry contains the query. *)
Lemma matchesTerm_CI (q : string) (p : object) (b : bool) :
  matchesTerm (toLowerCase q) p = Some b → b = true ↔ matchesCI q p.
Proof.
  unfold matchesTerm, matchesCI.
  destruct (field "service" p) as [s|]; [|done].
  destruct (includes (toLowerCase s) (toLowerCase q)) eqn:Es.
  - intros [= <-]. split; [|done]. intros _. left. exists s.
    split; [done|]. by apply includes_toLowerCase.
  - destruct (field "username" p) as [u|]; [|done]. intros [= <-].
    rewrite includes_toLowerCase. split.
    + intros Hu. right. by exists u.
    + intros [(s' & [= <-] & Hc)|(u' & [= <-] & Hc)]; [|done].
      apply includes_toLowerCase in Hc. congruence.
Qed.


Lemma filterArray_searchable (term : string) (l : list object) :
  Forall searchable l →
  filterArray (matchesTerm term) l = Some (filter (λ p, matchesBool term p) l).
Proof.
  induction 1 as [|p l Hp Hl IH]; simpl; [done|].
  rewrite (matchesTerm_searchable _ _ Hp), IH.
  rewrite filter_cons. by destruct (matchesBool term p).
Qed.

Lemma matchesBool_CI (q : string) (p : object) :
  searchable p → matchesBool (toLowerCase q) p = true ↔ matchesCI q p.
Proof.
  intros Hp. apply matchesTerm_CI. by apply matchesTerm_searchable.
Qed.

Lemma getAll_searchable (st : gmap string object) :
  searchableStore st → Forall searchable (Idb.getAll st).
Proof.
  intros Hst. apply Forall_forall. intros p [k Hk]%elem_of_getAll. by eapply Hst.
Qed.

(** The search of a query that is not blank, as the code computes it. *)
Lemma searchPasswords_filter (q : string) (st : gmap string object) :
  allWhiteSpace q = false → searchableStore st →
  searchPasswords q st =
    Resolved (sort byUpdatedAtDesc
                (filter (λ p, matchesBool (toLowerCase q) p) (Idb.getAll st))).
Proof.
  intros Hq Hst. unfold searchPasswords. rewrite blank_guard, Hq.
  simpl. by rewrite filterArray_searchable by by apply getAll_searchable.
Qed.

Lemma searchPasswords_blank (q : string) (st : gmap string object) :
  allWhiteSpace q = true → searchPasswords q st = getAllPasswords st.
Proof.
  intros Hq. unfold searchPasswords. by rewrite blank_guard, Hq.
Qed.


End SearchFacts.

Lemma elem_of_listed (st : gmap string object) (p : object) :
  p ∈ sort byUpdatedAtDesc (Idb.getAll st) ↔ ∃ k, st !! k = Some p.
Proof. by rewrite elem_of_sort, elem_of_getAll. Qed.

(** ** Listing and searching *)

(** Sorting the values of a list of bindings is sorting the bindings by
    their values. *)
Lemma sort_fmap {A B : Type} (f : A → B) (compareFn : B → B → Z) (l : list A) :
  sort compareFn (f <$> l) = f <$> sort (λ x y, compareFn (f x) (f y)) l.
Proof.
  induction l as [|x l IH]; csimpl; [done|]. rewrite IH.
  generalize (sort (λ x y, compareFn (f x) (f y)) l). intros s.
  induction s as [|y s IHs]; csimpl; [done|].
  destruct (compareFn (f x) (f y) <=? 0); csimpl; [done | by rewrite IHs].
Qed.

(** C8: [getAllPasswords] returns every stored record exactly once (the
    records of the bindings of the store, each key taken once), most
    recently updated first; on the empty store it resolves to the empty
    list. *)
Theorem getAllPasswords_lists_all (st : gmap string object) :
  (∃ l, getAllPasswords st = Resolved l ∧
        (∃ bindings, bindings ≡ₚ map_to_list st ∧ NoDup bindings.*1 ∧
                     l = bindings.*2) ∧
        l ≡ₚ records st ∧
        length l = size st ∧
        (∀ p, p ∈ l ↔ ∃ k, st !! k = Some p) ∧
        newestFirst l) ∧
  getAllPasswords ∅ = Resolved [].
Proof.
  split.
  - exists (sort byUpdatedAtDesc (Idb.getAll st)).
    assert (sort byUpdatedAtDesc (Idb.getAll st) ≡ₚ records st) as HP.
    { by rewrite sort_Permutation, getAll_Permutation. }
    split_and!; [done | | done | | | apply sort_newestFirst].
    + unfold Idb.getAll. rewrite sort_fmap. eexists. split_and!; [|  |done].
      * by rewrite sort_Permutation, merge_sort_Permutation.
      * rewrite sort_Permutation, merge_sort_Permutation.
        apply NoDup_fst_map_to_list.
    + by rewrite HP, records_length.
    + intros p. by rewrite HP, elem_of_records.
  - unfold getAllPasswords. by rewrite getAll_empty.
Qed.

(** C2: on the empty query, and on any query made of white space only
    (every code unit of it is white space or a line terminator of
    ECMAScript), [searchPasswords] is [getAllPasswords]: the same records in
    the same order. *)
Theorem search_blank_is_listAll `{Strings} (st : gmap string object) :
  searchPasswords "" st = getAllPasswords st ∧
  ∀ q, allWhiteSpace q = true → searchPasswords q st = getAllPasswords st.
Proof.
  split; [apply searchPasswords_blank, allWhiteSpace_empty|].
  intros q. apply searchPasswords_blank.
Qed.

(** C1, as amended: for a query that is not blank and a store whose records
    have a service and a user name, [searchPasswords] returns exactly the
    stored records whose service or user name contains the query as a
    case-insensitive substring (the records split into the result, which
    all match, and the rest, none of which matches), most recently updated
    first. *)
Theorem search_returns_matches `{Strings} (q : string) (st : gmap string object) :
  allWhiteSpace q = false → searchableStore st →
  ∃ l rest, searchPasswords q st = Resolved l ∧
            l ++ rest ≡ₚ records st ∧
            Forall (matchesCI q) l ∧
            Forall (λ p, ¬ matchesCI q p) rest ∧
            newestFirst l.
Proof.
  intros Hq Hst.
  set (P := λ p, matchesBool (toLowerCase q) p).
  exists (sort byUpdatedAtDesc (filter P (Idb.getAll st))),
         (filter (λ p, ¬ P p) (Idb.getAll st)).
  split_and!.
  - by apply searchPasswords_filter.
  - by rewrite sort_Permutation, filter_app_complement, getAll_Permutation.
  - apply Forall_forall. intros p [Hp Hin]%elem_of_sort%list_elem_of_filter.
    apply matchesBool_CI; [|by apply Is_true_true].
    apply elem_of_getAll in Hin as [k Hk]. by eapply Hst.
  - apply Forall_forall. intros p [Hp Hin]%list_elem_of_filter Hm.
    apply Hp. apply Is_true_true. apply matchesBool_CI; [|done].
    apply elem_of_getAll in Hin as [k Hk]. by eapply Hst.
  - apply sort_newestFirst.
Qed.


(** ** Identifiers *)

Lemma app_empty (t : string) : "" +:+ t = t.
Proof. reflexivity. Qed.

Lemma app_String (c : ascii) (s t : string) :
  String c s +:+ t = String c (s +:+ t).
Proof. reflexivity. Qed.

Lemma pretty_N_char_digit (x : N) : isDigitOrSign (pretty_N_char x) = true.
Proof. unfold pretty_N_char. by repeat case_match. Qed.

Lemma pretty_N_go_digits (x : N) (s : string) :
  allDigitsOrSign s = true → allDigitsOrSign (pretty_N_go x s) = true.
Proof.
  revert s. induction (N.lt_wf_0 x) as [x _ IH]; intros s Hs.
  destruct (decide (x = 0)%N) as [->|Hx]; [by rewrite pretty_N_go_0|].
  rewrite pretty_N_go_step by lia. apply IH.
  - apply N.div_lt; lia.
  - simpl. by rewrite pretty_N_char_digit.
Qed.

Lemma pretty_N_digits (x : N) : allDigitsOrSign (pretty x) = true.
Proof.
  unfold pretty, pretty_N. case_decide; [done|]. by apply pretty_N_go_digits.
Qed.

(** The decimal notation of an integer has no underscore. *)
Lemma pretty_Z_digits (x : Z) : allDigitsOrSign (pretty x) = true.
Proof.
  destruct x as [|p|p]; [done| |].
  - apply (pretty_N_digits (Npos p)).
  - change (pretty (Z.neg p)) with (String "-" (pretty (Npos p))).
    simpl. apply (pretty_N_digits (Npos p)).
Qed.

Lemma underscore_split (a a' s s' : string) :
  allDigitsOrSign a = true → allDigitsOrSign a' = true →
  a +:+ String "_" s = a' +:+ String "_" s' → a = a' ∧ s = s'.
Proof.
  revert a'. induction a as [|c a IH]; intros [|c' a'] Ha Ha' H.
  - by injection H.
  - rewrite app_empty, app_String in H. injection H as <- _.
    simpl in Ha'. discriminate.
  - rewrite app_empty, app_String in H. injection H as -> _.
    simpl in Ha. discriminate.
  - rewrite !app_String in H. injection H as -> H.
    simpl in Ha, Ha'. apply andb_true_iff in Ha as [_ Ha].
    apply andb_true_iff in Ha' as [_ Ha'].
    destruct (IH a' Ha Ha' H) as [-> ->]. done.
Qed.

(** X1: [generateId] is injective: two identifiers are equal only if they
    were made from the same clock reading and the same random suffix. *)
Theorem generateId_inj (ms ms' : Z) (suffix suffix' : string) :
  generateId ms suffix = generateId ms' suffix' → ms = ms' ∧ suffix = suffix'.
Proof.
  unfold generateId. intros H.
  change ("pwd_" +:+ pretty ms +:+ "_" +:+ suffix)
    with (String "p" (String "w" (String "d" (String "_"
            (pretty ms +:+ String "_" suffix))))) in H.
  change ("pwd_" +:+ pretty ms' +:+ "_" +:+ suffix')
    with (String "p" (String "w" (String "d" (String "_"
            (pretty ms' +:+ String "_" suffix'))))) in H.
  injection H as H.
  apply underscore_split in H as [H ->]; [|apply pretty_Z_digits..].
  by apply (inj pretty) in H.
Qed.

Lemma generateId_inj_witness : 1000 = 1000 ∧ "k3j2h1g0f" = "k3j2h1g0f".
Proof.
  apply (generateId_inj 1000 1000 "k3j2h1g0f" "k3j2h1g0f"). reflexivity.
Defined.


(** An identifier generated apart from those of the store is not in it. *)
Lemma generateId_apart (ms : Z) (suffix : string) (st : gmap string object) :
  generatedApart ms suffix st → st !! generateId ms suffix = None.
Proof.
  intros Hst. destruct (st !! generateId ms suffix) as [p|] eqn:E; [|done].
  destruct (Hst (generateId ms suffix)) as (ms' & suffix' & Hk & Hne);
    [by rewrite E|].
  destruct Hne. unfold generateId in Hk.
  change ("pwd_" +:+ pretty ms +:+ "_" +:+ suffix)
    with (String "p" (String "w" (String "d" (String "_"
            (pretty ms +:+ String "_" suffix))))) in Hk.
  change ("pwd_" +:+ pretty ms' +:+ "_" +:+ suffix')
    with (String "p" (String "w" (String "d" (String "_"
            (pretty ms' +:+ String "_" suffix'))))) in Hk.
  injection Hk as Hk.
  apply underscore_split in Hk as [Hk ->]; [|apply pretty_Z_digits..].
  by apply (inj pretty) in Hk as ->.
Qed.

(** ** Adding, updating and deleting *)

Lemma partial_no_id (u : object) : isPartialInsert u → props u !! "id" = None.
Proof. intros (H & _ & _). apply H. by left. Qed.

Lemma keyOf_spread (a b : object) (t : Z) :
  props b !! "id" = None → keyOf (setUpdatedAt t (spread a b)) = keyOf a.
Proof. intros Hb. unfold keyOf, field. simpl. by rewrite lookup_union_r. Qed.

(** The request of [addPassword] succeeds exactly on a key that is free. *)
Lemma addPassword_free (now idNow : Z) (suffix : string) (data : object)
    (st : gmap string object) :
  props data !! "id" = None → st !! generateId idNow suffix = None →
  addPassword now idNow suffix data st =
    (Resolved (setUpdatedAt now (setCreatedAt now
                 (spread (objId (generateId idNow suffix)) data))),
     <[generateId idNow suffix :=
         setUpdatedAt now (setCreatedAt now
           (spread (objId (generateId idNow suffix)) data))]> st).
Proof.
  intros Hid Hfree. unfold addPassword, Idb.add, keyOf, field. simpl.
  rewrite lookup_union_r, lookup_singleton_eq by done. by rewrite Hfree.
Qed.

Lemma addPassword_taken (now idNow : Z) (suffix : string) (data : object)
    (st : gmap string object) :
  props data !! "id" = None → is_Some (st !! generateId idNow suffix) →
  addPassword now idNow suffix data st = (Rejected CannotAdd, st).
Proof.
  intros Hid [p Hp]. unfold addPassword, Idb.add, keyOf, field. simpl.
  rewrite lookup_union_r, lookup_singleton_eq by done. by rewrite Hp.
Qed.

(** [updatePassword] on a record that exists, whatever the payload. *)
Lemma updatePassword_found (now : Z) (id k : string) (u e : object)
    (st : gmap string object) :
  st !! id = Some e → keyOf (setUpdatedAt now (spread e u)) = Some k →
  updatePassword now id u st =
    (Resolved (setUpdatedAt now (spread e u)),
     <[k := setUpdatedAt now (spread e u)]> st).
Proof.
  intros He Hk. unfold updatePassword, Idb.get, Idb.put. by rewrite He, Hk.
Qed.

Lemma updatePassword_typed (now : Z) (id : string) (u e : object)
    (st : gmap string object) :
  keyed st → isPartialInsert u → st !! id = Some e →
  updatePassword now id u st =
    (Resolved (setUpdatedAt now (spread e u)),
     <[id := setUpdatedAt now (spread e u)]> st).
Proof.
  intros Hst Hu He. apply updatePassword_found; [done|].
  rewrite keyOf_spread by by apply partial_no_id. by eapply Hst.
Qed.

Lemma updatePassword_missing (now : Z) (id : string) (u : object)
    (st : gmap string object) :
  st !! id = None → updatePassword now id u st = (Rejected NotFound, st).
Proof. intros H. unfold updatePassword, Idb.get. by rewrite H. Qed.

(** C3, as amended: for a valid payload [addPassword] builds the record
    with the generated identifier and both timestamps equal to the clock
    reading.  Where that identifier is not in the store, as it is whenever
    every stored identifier was generated from another clock reading or
    another suffix, it stores the record under it and resolves to it, and
    [getAllPasswords] then lists it; where the identifier is in use the
    store rejects the request and stays as it was. *)
Theorem add_then_listAll (now idNow : Z) (suffix : string) (data : object)
    (st : gmap string object) :
  isPasswordInsert data →
  (generatedApart idNow suffix st → st !! generateId idNow suffix = None) ∧
  (st !! generateId idNow suffix = None →
   ∃ r st' l,
     addPassword now idNow suffix data st = (Resolved r, st') ∧
     keyOf r = Some (generateId idNow suffix) ∧
     (∀ f, f ≠ "id" → props r !! f = props data !! f) ∧
     createdAt r = Some now ∧ updatedAt r = Some now ∧
     createdAt r = updatedAt r ∧
     st' = <[generateId idNow suffix := r]> st ∧
     st' !! generateId idNow suffix = Some r ∧
     getAllPasswords st' = Resolved l ∧ r ∈ l) ∧
  (is_Some (st !! generateId idNow suffix) →
   addPassword now idNow suffix data st = (Rejected CannotAdd, st)).
Proof.
  intros [Hdata _]. apply partial_no_id in Hdata. split_and!.
  - apply generateId_apart.
  - intros Hfree. do 3 eexists.
    split; [by apply addPassword_free|].
    split_and!; try done.
    + unfold keyOf, field. simpl. by rewrite lookup_union_r, lookup_singleton_eq.
    + intros f Hf. simpl.
      destruct (props data !! f) as [v|] eqn:E.
      * by apply lookup_union_Some_l.
      * rewrite lookup_union_r by done. by apply lookup_singleton_ne.
    + by rewrite lookup_insert_eq.
    + apply elem_of_listed. eexists. by rewrite lookup_insert_eq.
  - by apply addPassword_taken.
Qed.

Lemma insertData_valid (service username password : string) :
  isPasswordInsert (insertData service username password).
Proof.
  split; [|split; by eexists].
  split; [|done]. by intros f [->|[->| ->]].
Defined.

Lemma sampleStore_apart : generatedApart 1000 "k3j2h1g0f" sampleStore.
Proof.
  intros k [p Hk]. unfold sampleStore in Hk.
  apply lookup_insert_Some in Hk as [[<- _]|[_ Hk]];
    [by exists 3, "c"|].
  apply lookup_insert_Some in Hk as [[<- _]|[_ Hk]];
    [by exists 2, "b"|].
  apply lookup_insert_Some in Hk as [[<- _]|[_ Hk]];
    [by exists 1, "a"|].
  by rewrite lookup_empty in Hk.
Defined.

Lemma add_then_listAll_witness :
  ∃ r st' l,
    addPassword 999 1000 "k3j2h1g0f" (insertData "Mail" "dave" "s3cret") sampleStore
      = (Resolved r, st') ∧
    keyOf r = Some (generateId 1000 "k3j2h1g0f") ∧
    (∀ f, f ≠ "id" → props r !! f = props (insertData "Mail" "dave" "s3cret") !! f) ∧
    createdAt r = Some 999 ∧ updatedAt r = Some 999 ∧
    createdAt r = updatedAt r ∧
    st' = <[generateId 1000 "k3j2h1g0f" := r]> sampleStore ∧
    st' !! generateId 1000 "k3j2h1g0f" = Some r ∧
    getAllPasswords st' = Resolved l ∧ r ∈ l.
Proof.
  destruct (add_then_listAll 999 1000 "k3j2h1g0f"
              (insertData "Mail" "dave" "s3cret") sampleStore
              (insertData_valid "Mail" "dave" "s3cret")) as (Hfresh & Hadd & _).
  exact (Hadd (Hfresh sampleStore_apart)).
Defined.

(** C3 as stated fails: a second add that draws the clock reading and the
    suffix of the first is rejected, its record is not stored and the
    listing does not show it. *)
Lemma add_same_identifier_rejected :
  isPasswordInsert (insertData "gitlab" "bob" "pa55") ∧
  addPassword 1000 1000 "k3j2h1g0f" (insertData "GitHub" "alice" "s3cret") ∅
    = (Resolved freshEntry, {[ "pwd_1000_k3j2h1g0f" := freshEntry ]}) ∧
  addPassword 1000 1000 "k3j2h1g0f" (insertData "gitlab" "bob" "pa55")
      {[ "pwd_1000_k3j2h1g0f" := freshEntry ]}
    = (Rejected CannotAdd, {[ "pwd_1000_k3j2h1g0f" := freshEntry ]}) ∧
  getAllPasswords {[ "pwd_1000_k3j2h1g0f" := freshEntry ]} = Resolved [freshEntry].
Proof.
  split; [apply insertData_valid|]. split_and!; vm_refl.
Qed.

(** The new record is listed in front of the older ones. *)
Example add_listed_first :
  getAllPasswords
    (addPassword 999 1000 "k3j2h1g0f" (insertData "Mail" "dave" "s3cret") sampleStore).2
  = Resolved
      [ {| props := strings {[ "id" := "pwd_1000_k3j2h1g0f"; "service" := "Mail";
                       "username" := "dave"; "password" := "s3cret" ]};
           createdAt := Some 999; updatedAt := Some 999 |};
        entry "pwd_2_b" "gitlab" "bob" 50;
        entry "pwd_1_a" "GitHub" "alice" 40;
        entry "pwd_3_c" "Twitter" "carol" 30 ].
Proof. vm_refl. Qed.

(** C4: [updatePassword] is rejected as not found exactly when the store has
    no record under the identifier; on a record that exists, and a payload
    of the other properties, it lays the payload over the record, sets
    [updatedAt] to the clock reading, stores the result under the same
    identifier and resolves to it. *)
Theorem update_not_found_iff (now : Z) (id : string) (updates : object)
    (st : gmap string object) :
  ((updatePassword now id updates st).1 = Rejected NotFound ↔ st !! id = None) ∧
  (st !! id = None → updatePassword now id updates st = (Rejected NotFound, st)) ∧
  (keyed st → isPartialInsert updates →
   ∀ e, st !! id = Some e →
     updatePassword now id updates st =
       (Resolved (setUpdatedAt now (spread e updates)),
        <[id := setUpdatedAt now (spread e updates)]> st) ∧
     props (setUpdatedAt now (spread e updates)) = props updates ∪ props e ∧
     createdAt (setUpdatedAt now (spread e updates)) = createdAt e ∧
     updatedAt (setUpdatedAt now (spread e updates)) = Some now).
Proof.
  split_and!.
  - split.
    + unfold updatePassword, Idb.get. destruct (st !! id) as [e|]; [|done].
      by destruct (Idb.put _ st).
    + intros H. by rewrite updatePassword_missing.
  - apply updatePassword_missing.
  - intros Hst Hu e He. split; [by apply updatePassword_typed|].
    destruct Hu as (_ & Hc & _). simpl. rewrite Hc.
    by destruct (createdAt e).
Qed.

Lemma sampleStore_keyed : keyed sampleStore.
Proof. apply (bool_decide_unpack _). by vm_compute. Defined.

Lemma objField_partial (f v : string) :
  ¬ assigned f → isPartialInsert (objField f v).
Proof.
  intros Hf. split; [|done]. intros g Hg. simpl.
  apply lookup_singleton_ne. by intros ->.
Defined.

Lemma password_not_assigned : ¬ assigned "password".
Proof. by intros [?|[?|?]]. Defined.

Lemma update_not_found_iff_witness :
  ((updatePassword 60 "pwd_1_a" (objField "password" "n3w") sampleStore).1
     = Rejected NotFound ↔ sampleStore !! "pwd_1_a" = None) ∧
  updatePassword 60 "pwd_9_z" (objField "password" "n3w") sampleStore
    = (Rejected NotFound, sampleStore) ∧
  updatePassword 60 "pwd_1_a" (objField "password" "n3w") sampleStore =
    (Resolved (setUpdatedAt 60 (spread (entry "pwd_1_a" "GitHub" "alice" 40)
                                       (objField "password" "n3w"))),
     <["pwd_1_a" := setUpdatedAt 60 (spread (entry "pwd_1_a" "GitHub" "alice" 40)
                                            (objField "password" "n3w"))]>
       sampleStore).
Proof.
  split; [apply (update_not_found_iff 60 "pwd_1_a" (objField "password" "n3w") sampleStore)|].
  split.
  - apply (update_not_found_iff 60 "pwd_9_z" (objField "password" "n3w") sampleStore).
    vm_refl.
  - apply (update_not_found_iff 60 "pwd_1_a" (objField "password" "n3w") sampleStore);
      [apply sampleStore_keyed
      | apply objField_partial, password_not_assigned
      | vm_refl].
Defined.

(** An update of a record that exists, and one of an identifier that is not
    in the store. *)
Example update_found_and_missing :
  updatePassword 60 "pwd_1_a" (objField "password" "n3w") sampleStore =
    (Resolved {| props := strings {[ "id" := "pwd_1_a"; "service" := "GitHub";
                             "username" := "alice"; "password" := "n3w" ]};
                 createdAt := Some 40; updatedAt := Some 60 |},
     <["pwd_1_a" := {| props := strings {[ "id" := "pwd_1_a"; "service" := "GitHub";
                                   "username" := "alice"; "password" := "n3w" ]};
                       createdAt := Some 40; updatedAt := Some 60 |}]> sampleStore) ∧
  updatePassword 60 "pwd_9_z" (objField "password" "n3w") sampleStore =
    (Rejected NotFound, sampleStore).
Proof. split; vm_refl. Qed.

(** C5, as amended: after [updatePassword] of an existing record with the
    payload [{f: v}], [f] not being a property that the store assigns,
    [getAllPasswords] lists under that identifier one record, in which [f]
    is [v] and [updatedAt] is the clock reading of the update; the timestamp
    is strictly later than before exactly when the clock has moved past the
    earlier timestamp, and is not earlier when the clock has not run
    backwards. *)
Theorem update_sets_field_and_time (now : Z) (id f v : string) (e : object)
    (st : gmap string object) :
  keyed st → st !! id = Some e → ¬ assigned f →
  ∃ e' st' l,
    updatePassword now id (objField f v) st = (Resolved e', st') ∧
    getAllPasswords st' = Resolved l ∧
    e' ∈ l ∧ (∀ p, p ∈ l → keyOf p = Some id → p = e') ∧
    keyOf e' = Some id ∧
    props e' !! f = Some (Some v) ∧
    updatedAt e' = Some now ∧
    (updatedTime e < updatedTime e' ↔ updatedTime e < now) ∧
    (updatedTime e ≤ now → updatedTime e ≤ updatedTime e').
Proof.
  intros Hst He Hf.
  pose proof (objField_partial f v Hf) as Hu.
  do 3 eexists. split; [by apply updatePassword_typed|].
  split; [done|]. split_and!.
  - apply elem_of_listed. exists id. by rewrite lookup_insert_eq.
  - intros p [k Hk]%elem_of_listed Hp.
    destruct (decide (k = id)) as [->|Hne].
    + rewrite lookup_insert_eq in Hk. congruence.
    + rewrite lookup_insert_ne in Hk by done.
      apply Hst in Hk. simpl in Hk. congruence.
  - rewrite keyOf_spread by by apply partial_no_id. by eapply Hst.
  - simpl. apply lookup_union_Some_l, lookup_singleton_eq.
  - done.
  - done.
  - done.
Qed.

Lemma update_sets_field_and_time_witness :
  ∃ e' st' l,
    updatePassword 60 "pwd_1_a" (objField "password" "n3w") sampleStore
      = (Resolved e', st') ∧
    getAllPasswords st' = Resolved l ∧
    e' ∈ l ∧ (∀ p, p ∈ l → keyOf p = Some "pwd_1_a" → p = e') ∧
    keyOf e' = Some "pwd_1_a" ∧
    props e' !! "password" = Some (Some "n3w") ∧
    updatedAt e' = Some 60 ∧
    (updatedTime (entry "pwd_1_a" "GitHub" "alice" 40) < updatedTime e'
       ↔ updatedTime (entry "pwd_1_a" "GitHub" "alice" 40) < 60) ∧
    (updatedTime (entry "pwd_1_a" "GitHub" "alice" 40) ≤ 60 →
     updatedTime (entry "pwd_1_a" "GitHub" "alice" 40) ≤ updatedTime e').
Proof.
  apply (update_sets_field_and_time 60 "pwd_1_a" "password" "n3w"
           (entry "pwd_1_a" "GitHub" "alice" 40) sampleStore);
    [apply sampleStore_keyed | by vm_compute | apply password_not_assigned].
Defined.

(** C5 as stated fails: a record added and updated within the same
    millisecond keeps its last-modified timestamp. *)
Lemma update_same_instant_not_later :
  addPassword 1000 1000 "k3j2h1g0f" (insertData "GitHub" "alice" "s3cret") ∅
    = (Resolved freshEntry, {[ "pwd_1000_k3j2h1g0f" := freshEntry ]}) ∧
  updatePassword 1000 "pwd_1000_k3j2h1g0f" (objField "password" "n3w")
      {[ "pwd_1000_k3j2h1g0f" := freshEntry ]}
    = (Resolved changedEntry, {[ "pwd_1000_k3j2h1g0f" := changedEntry ]}) ∧
  getAllPasswords {[ "pwd_1000_k3j2h1g0f" := changedEntry ]}
    = Resolved [changedEntry] ∧
  props changedEntry !! "password" = Some (Some "n3w") ∧
  ¬ (updatedTime freshEntry < updatedTime changedEntry).
Proof.
  split_and!; [vm_refl | vm_refl | vm_refl | vm_refl |].
  unfold updatedTime. simpl. lia.
Qed.

(** The type of the payload matters: a payload that names [id] makes
    [store.put] write the merged record under that key, here over the
    record of gitlab, and leaves the record that was read as it was. *)
Example update_payload_with_id :
  (updatePassword 60 "pwd_1_a" (objId "pwd_2_b") sampleStore).2 =
    <["pwd_2_b" := {| props := strings {[ "id" := "pwd_2_b"; "service" := "GitHub";
                                  "username" := "alice" ]};
                      createdAt := Some 40; updatedAt := Some 60 |}]> sampleStore.
Proof. vm_refl. Qed.

(** C6: [updatePassword] of an existing record with a payload of the other
    properties changes, in that record, the properties that the payload
    names and [updatedAt], and nothing else: the identifier, [createdAt] and
    every property that the payload does not name stay as they were, and so
    does every other record of the store. *)
Theorem update_frame (now : Z) (id : string) (updates e : object)
    (st : gmap string object) :
  keyed st → isPartialInsert updates → st !! id = Some e →
  ∃ e' st',
    updatePassword now id updates st = (Resolved e', st') ∧
    st' !! id = Some e' ∧
    keyOf e' = Some id ∧ keyOf e' = keyOf e ∧
    createdAt e' = createdAt e ∧
    (∀ f, props updates !! f = None → props e' !! f = props e !! f) ∧
    (∀ f v, props updates !! f = Some v → props e' !! f = Some v) ∧
    updatedAt e' = Some now ∧
    (∀ k, k ≠ id → st' !! k = st !! k) ∧
    dom st' = dom st.
Proof.
  intros Hst Hu He. do 2 eexists.
  split; [by apply updatePassword_typed|].
  assert (keyOf (setUpdatedAt now (spread e updates)) = keyOf e) as Hk.
  { apply keyOf_spread. by apply partial_no_id. }
  split_and!.
  - by rewrite lookup_insert_eq.
  - rewrite Hk. by eapply Hst.
  - done.
  - destruct Hu as (_ & Hc & _). simpl. rewrite Hc. by destruct (createdAt e).
  - intros f Hf. simpl. by rewrite lookup_union_r.
  - intros f v Hf. simpl. by apply lookup_union_Some_l.
  - done.
  - intros k Hne. by rewrite lookup_insert_ne.
  - rewrite dom_insert_L. apply elem_of_dom_2 in He.
    apply set_eq. intros k. rewrite elem_of_union, elem_of_singleton.
    split; [by intros [->|?] | by right].
Qed.

Lemma update_frame_witness :
  ∃ e' st',
    updatePassword 60 "pwd_1_a" (objField "password" "n3w") sampleStore
      = (Resolved e', st') ∧
    st' !! "pwd_1_a" = Some e' ∧
    keyOf e' = Some "pwd_1_a" ∧
    keyOf e' = keyOf (entry "pwd_1_a" "GitHub" "alice" 40) ∧
    createdAt e' = createdAt (entry "pwd_1_a" "GitHub" "alice" 40) ∧
    (∀ f, props (objField "password" "n3w") !! f = None →
          props e' !! f = props (entry "pwd_1_a" "GitHub" "alice" 40) !! f) ∧
    (∀ f v, props (objField "password" "n3w") !! f = Some v →
            props e' !! f = Some v) ∧
    updatedAt e' = Some 60 ∧
    (∀ k, k ≠ "pwd_1_a" → st' !! k = sampleStore !! k) ∧
    dom st' = dom sampleStore.
Proof.
  apply (update_frame 60 "pwd_1_a" (objField "password" "n3w")
           (entry "pwd_1_a" "GitHub" "alice" 40) sampleStore);
    [apply sampleStore_keyed
    | apply objField_partial, password_not_assigned
    | by vm_compute].
Defined.

(** C7: [deletePassword] resolves whether or not the identifier is in the
    store; afterwards the store has no record under it (a read of the key
    finds nothing and an update is rejected as not found), the other records
    are as before, and a second [deletePassword] resolves as well and
    changes nothing. *)
Theorem delete_idempotent (id : string) (st : gmap string object) :
  ∃ st',
    deletePassword id st = (Resolved (), st') ∧
    Idb.get id st' = None ∧
    (∀ now updates, updatePassword now id updates st' = (Rejected NotFound, st')) ∧
    (∀ l p, getAllPasswords st' = Resolved l → p ∈ l →
            ∃ k, k ≠ id ∧ st !! k = Some p) ∧
    (∀ k, k ≠ id → st' !! k = st !! k) ∧
    (st !! id = None → st' = st) ∧
    deletePassword id st' = (Resolved (), st').
Proof.
  exists (delete id st). unfold deletePassword, Idb.delete, Idb.get.
  split_and!.
  - done.
  - apply lookup_delete_eq.
  - intros now u. apply updatePassword_missing, lookup_delete_eq.
  - intros l p [= <-] [k Hk]%elem_of_listed.
    apply lookup_delete_Some in Hk as [Hne Hk]. by exists k.
  - intros k Hne. by apply lookup_delete_ne.
  - apply delete_id.
  - f_equal. apply delete_id, lookup_delete_eq.
Qed.

(** Deleting an entry, and deleting it again. *)
Example delete_twice :
  (deletePassword "pwd_2_b" sampleStore).2 =
    <["pwd_3_c" := entry "pwd_3_c" "Twitter" "carol" 30]>
      (<["pwd_1_a" := entry "pwd_1_a" "GitHub" "alice" 40]> ∅) ∧
  deletePassword "pwd_2_b" (deletePassword "pwd_2_b" sampleStore).2 =
    (Resolved (), (deletePassword "pwd_2_b" sampleStore).2).
Proof. split; vm_refl. Qed.

(** ** Sequences of operations *)

Lemma run_app (rs1 rs2 : list request) (st : gmap string object) :
  run (rs1 ++ rs2)%list st = run rs2 (run rs1 st).
Proof. apply foldl_app. Qed.

(** What a request leaves in the store was there before or carries the
    clock reading of the request. *)
Lemma perform_lookup (r : request) (st : gmap string object) (k : string)
    (p : object) :
  perform r st !! k = Some p →
  st !! k = Some p ∨ ∃ t, clockReading r = Some t ∧ updatedAt p = Some t.
Proof.
  destruct r as [now idNow suffix data|now id u|id]; simpl.
  - unfold addPassword, Idb.add.
    destruct (keyOf _) as [k0|]; simpl; [|by left].
    destruct (st !! k0) eqn:E; simpl; [by left|].
    destruct (decide (k0 = k)) as [->|Hne].
    + rewrite lookup_insert_eq. intros [= <-]. right. by exists now.
    + rewrite lookup_insert_ne by done. by left.
  - unfold updatePassword, Idb.get, Idb.put.
    destruct (st !! id) as [e|] eqn:E; simpl; [|by left].
    destruct (keyOf _) as [k0|]; simpl; [|by left].
    destruct (decide (k0 = k)) as [->|Hne].
    + rewrite lookup_insert_eq. intros [= <-]. right. by exists now.
    + rewrite lookup_insert_ne by done. by left.
  - unfold Idb.delete. intros [_ H]%lookup_delete_Some. by left.
Qed.

Lemma run_lookup (rs : list request) (st : gmap string object) (k : string)
    (p : object) :
  run rs st !! k = Some p →
  st !! k = Some p ∨ ∃ t, t ∈ omap clockReading rs ∧ updatedAt p = Some t.
Proof.
  revert st. induction rs as [|r rs IH]; intros st; simpl; [by left|].
  intros [H|(t & Ht & Hp)]%IH.
  - apply perform_lookup in H as [H|(t & Ht & Hp)]; [by left|].
    right. exists t. rewrite Ht. split; [left | done].
  - right. exists t. split; [|done].
    destruct (clockReading r); [by right | done].
Qed.

Lemma perform_stamped (r : request) (st : gmap string object) :
  map_Forall (λ _ p, stamped p) st → map_Forall (λ _ p, stamped p) (perform r st).
Proof.
  intros Hst. destruct r as [now idNow suffix data|now id u|id]; simpl.
  - unfold addPassword, Idb.add.
    destruct (keyOf _) as [k0|]; simpl; [|done].
    destruct (st !! k0) eqn:E; simpl; [done|].
    apply map_Forall_insert_2; [|done]. by split; eexists.
  - unfold updatePassword, Idb.get, Idb.put.
    destruct (st !! id) as [e|] eqn:E; simpl; [|done].
    destruct (keyOf _) as [k0|]; simpl; [|done].
    apply map_Forall_insert_2; [|done].
    apply Hst in E as [[c Hc] _]. split; [|by eexists]. simpl.
    rewrite Hc. destruct (createdAt u); by eexists.
  - unfold Idb.delete. by apply map_Forall_delete.
Qed.

Lemma run_stamped (rs : list request) (st : gmap string object) :
  map_Forall (λ _ p, stamped p) st → map_Forall (λ _ p, stamped p) (run rs st).
Proof.
  revert st. induction rs as [|r rs IH]; intros st Hst; simpl; [done|].
  by apply IH, perform_stamped.
Qed.

Lemma perform_keyed (r : request) (st : gmap string object) :
  keyed st → keyed (perform r st).
Proof.
  intros Hst. destruct r as [now idNow suffix data|now id u|id]; simpl.
  - unfold addPassword, Idb.add.
    destruct (keyOf _) as [k0|] eqn:K; simpl; [|done].
    destruct (st !! k0) eqn:E; simpl; [done|].
    by apply map_Forall_insert_2.
  - unfold updatePassword, Idb.get, Idb.put.
    destruct (st !! id) as [e|] eqn:E; simpl; [|done].
    destruct (keyOf _) as [k0|] eqn:K; simpl; [|done].
    by apply map_Forall_insert_2.
  - unfold Idb.delete. by apply map_Forall_delete.
Qed.

Lemma spread_field (f : string) (a b : object) (t : Z) :
  props b !! f ≠ Some None → is_Some (field f a) →
  is_Some (field f (setUpdatedAt t (spread a b))).
Proof.
  unfold field. simpl. intros Hb Ha.
  destruct (props b !! f) as [[v|]|] eqn:E.
  - by rewrite (lookup_union_Some_l _ _ _ _ E).
  - done.
  - by rewrite lookup_union_r.
Qed.

Lemma perform_searchable (r : request) (st : gmap string object) :
  validRequest r → keepsSearchFieldsRequest r →
  searchableStore st → searchableStore (perform r st).
Proof.
  intros Hr Hkeep Hst. destruct r as [now idNow suffix data|now id u|id]; simpl.
  - unfold addPassword, Idb.add.
    destruct (keyOf _) as [k0|] eqn:K; simpl; [|done].
    destruct (st !! k0) eqn:E; simpl; [done|].
    apply map_Forall_insert_2; [|done].
    destruct Hr as (_ & [s Hs] & [n Hn]). unfold field in Hs, Hn.
    destruct (props data !! "service") as [[s'|]|] eqn:Es; try done.
    destruct (props data !! "username") as [[n'|]|] eqn:En; try done.
    split; unfold field; simpl.
    + by rewrite (lookup_union_Some_l _ _ _ _ Es).
    + by rewrite (lookup_union_Some_l _ _ _ _ En).
  - unfold updatePassword, Idb.get, Idb.put.
    destruct (st !! id) as [e|] eqn:E; simpl; [|done].
    destruct (keyOf _) as [k0|] eqn:K; simpl; [|done].
    apply map_Forall_insert_2; [|done].
    apply Hst in E as [Hs Hn]. destruct Hkeep as [Ks Kn].
    split; by apply spread_field.
  - unfold Idb.delete. by apply map_Forall_delete.
Qed.

Lemma run_keyed (rs : list request) (st : gmap string object) :
  keyed st → keyed (run rs st).
Proof.
  revert st. induction rs as [|r rs IH]; intros st Hst; simpl; [done|].
  by apply IH, perform_keyed.
Qed.

Lemma run_searchable (rs : list request) (st : gmap string object) :
  Forall validRequest rs → Forall keepsSearchFieldsRequest rs →
  searchableStore st → searchableStore (run rs st).
Proof.
  revert st. induction rs as [|r rs IH]; intros st Hrs Hks Hst; simpl; [done|].
  apply Forall_cons in Hrs as [Hr Hrs]. apply Forall_cons in Hks as [Hk Hks].
  apply IH; [done | done | by apply perform_searchable].
Qed.

(** C9, as amended: in every state that a sequence of add, update and
    delete requests reaches from the empty store, every record has
    [createdAt] and [updatedAt] set; and where the clock readings of the
    requests do not decrease, the [updatedAt] of the record under an
    identifier never moves backwards from one state of the history to a
    later one. *)
Theorem timestamps_invariant (rs : list request) :
  (∀ k p, run rs ∅ !! k = Some p → stamped p) ∧
  (clockMonotone rs →
   ∀ pre mid post k p p',
     rs = (pre ++ mid ++ post)%list →
     run pre ∅ !! k = Some p →
     run (pre ++ mid)%list ∅ !! k = Some p' →
     stamped p ∧ stamped p' ∧ updatedTime p ≤ updatedTime p').
Proof.
  split.
  - intros k p Hp. revert k p Hp. apply (run_stamped rs ∅), map_Forall_empty.
  - intros Hmono pre mid post k p p' -> Hp Hp'.
    split; [by eapply (run_stamped pre ∅ (map_Forall_empty _)), Hp|].
    split; [by eapply (run_stamped (pre ++ mid) ∅ (map_Forall_empty _)), Hp'|].
    rewrite run_app in Hp'.
    apply run_lookup in Hp' as [Hp'|(t & Ht & Hpt)]; [by simplify_eq|].
    apply run_lookup in Hp as [Hp|(s & Hs & Hps)]; [by rewrite lookup_empty in Hp|].
    unfold updatedTime. rewrite Hps, Hpt. simpl.
    unfold clockMonotone in Hmono. rewrite !omap_app, app_assoc in Hmono.
    apply StronglySorted_app_1_l in Hmono.
    by eapply StronglySorted_app_1_elem_of in Hmono.
Qed.

Lemma timestamps_invariant_witness :
  clockMonotone
    [Add 10 10 "a" (insertData "GitHub" "alice" "x");
     Update 10 "pwd_10_a" (objField "password" "y");
     Delete "pwd_10_a";
     Add 12 10 "a" (insertData "GitHub" "alice" "z")] ∧
  (∀ k p,
     run [Add 10 10 "a" (insertData "GitHub" "alice" "x");
          Update 10 "pwd_10_a" (objField "password" "y");
          Delete "pwd_10_a";
          Add 12 10 "a" (insertData "GitHub" "alice" "z")] ∅ !! k = Some p →
     stamped p) ∧
  (∀ pre mid post k p p',
     [Add 10 10 "a" (insertData "GitHub" "alice" "x");
      Update 10 "pwd_10_a" (objField "password" "y");
      Delete "pwd_10_a";
      Add 12 10 "a" (insertData "GitHub" "alice" "z")] = (pre ++ mid ++ post)%list →
     run pre ∅ !! k = Some p →
     run (pre ++ mid)%list ∅ !! k = Some p' →
     stamped p ∧ stamped p' ∧ updatedTime p ≤ updatedTime p').
Proof.
  assert (Hmono : clockMonotone
            [Add 10 10 "a" (insertData "GitHub" "alice" "x");
             Update 10 "pwd_10_a" (objField "password" "y");
             Delete "pwd_10_a";
             Add 12 10 "a" (insertData "GitHub" "alice" "z")]).
  { unfold clockMonotone. simpl.
    repeat (constructor; [|repeat (constructor; try lia)]).
    constructor. }
  destruct (timestamps_invariant
              [Add 10 10 "a" (insertData "GitHub" "alice" "x");
               Update 10 "pwd_10_a" (objField "password" "y");
               Delete "pwd_10_a";
               Add 12 10 "a" (insertData "GitHub" "alice" "z")])
    as [Hstamped Horder].
  exact (conj Hmono (conj Hstamped (Horder Hmono))).
Defined.

(** C9 as stated fails: when the clock is set back between an add and an
    update, the last-modified timestamp of the record moves backwards. *)
Lemma clock_set_back_moves_timestamp :
  ∃ p p',
    run [Add 10 10 "a" (insertData "GitHub" "alice" "x")] ∅ !! "pwd_10_a" = Some p ∧
    run [Add 10 10 "a" (insertData "GitHub" "alice" "x");
         Update 5 "pwd_10_a" (objField "password" "y")] ∅ !! "pwd_10_a" = Some p' ∧
    updatedAt p = Some 10 ∧ updatedAt p' = Some 5 ∧
    ¬ (updatedTime p ≤ updatedTime p').
Proof.
  exists {| props := strings {[ "id" := "pwd_10_a"; "service" := "GitHub";
                                "username" := "alice"; "password" := "x" ]};
            createdAt := Some 10; updatedAt := Some 10 |},
         {| props := strings {[ "id" := "pwd_10_a"; "service" := "GitHub";
                                "username" := "alice"; "password" := "y" ]};
            createdAt := Some 10; updatedAt := Some 5 |}.
  split_and!; [vm_refl | vm_refl | done | done |].
  unfold updatedTime. simpl. lia.
Qed.

(** A history with a delete and a second add under the same identifier. *)
Example history_states :
  run [Add 10 10 "a" (insertData "GitHub" "alice" "x");
       Update 11 "pwd_10_a" (objField "password" "y")] ∅
    = {[ "pwd_10_a" :=
           {| props := strings {[ "id" := "pwd_10_a"; "service" := "GitHub";
                          "username" := "alice"; "password" := "y" ]};
              createdAt := Some 10; updatedAt := Some 11 |} ]} ∧
  run [Add 10 10 "a" (insertData "GitHub" "alice" "x");
       Update 11 "pwd_10_a" (objField "password" "y");
       Delete "pwd_10_a"] ∅ = ∅.
Proof. split; vm_refl. Qed.

(** ** How the operations compose *)

(** X2: adding a record under a fresh identifier and deleting that
    identifier gives the store back as it was. *)
Theorem add_delete_roundtrip (now idNow : Z) (suffix : string) (data : object)
    (st : gmap string object) :
  isPasswordInsert data → st !! generateId idNow suffix = None →
  (deletePassword (generateId idNow suffix)
     (addPassword now idNow suffix data st).2).2 = st.
Proof.
  intros [Hdata _] Hfree. apply partial_no_id in Hdata.
  rewrite addPassword_free by done. simpl. unfold Idb.delete.
  by rewrite delete_insert_id.
Qed.

Lemma add_delete_roundtrip_witness :
  (deletePassword (generateId 1000 "k3j2h1g0f")
     (addPassword 999 1000 "k3j2h1g0f" (insertData "Mail" "dave" "s3cret")
        sampleStore).2).2 = sampleStore.
Proof.
  apply (add_delete_roundtrip 999 1000 "k3j2h1g0f"
           (insertData "Mail" "dave" "s3cret") sampleStore);
    [apply insertData_valid | vm_refl].
Defined.

Lemma spread_partial (u1 u2 : object) :
  isPartialInsert u1 → isPartialInsert u2 → isPartialInsert (spread u1 u2).
Proof.
  intros (H1 & C1 & U1) (H2 & C2 & U2). split_and!; simpl.
  - intros f Hf. apply lookup_union_None. auto.
  - by rewrite C1, C2.
  - by rewrite U1, U2.
Qed.

Lemma spread_assoc (a b c : object) (t1 t2 : Z) :
  setUpdatedAt t2 (spread (setUpdatedAt t1 (spread a b)) c)
  = setUpdatedAt t2 (spread a (spread b c)).
Proof.
  unfold setUpdatedAt, spread. simpl. f_equal.
  - by rewrite (assoc_L (∪)).
  - by destruct (createdAt c), (createdAt b), (createdAt a).
Qed.

(** X3: two updates of a record, one after the other, leave the store and
    resolve as the single update with the second payload laid over the
    first, made at the time of the second. *)
Theorem update_update (t1 t2 : Z) (id : string) (u1 u2 e : object)
    (st : gmap string object) :
  keyed st → isPartialInsert u1 → isPartialInsert u2 → st !! id = Some e →
  updatePassword t2 id u2 (updatePassword t1 id u1 st).2
  = updatePassword t2 id (spread u1 u2) st.
Proof.
  intros Hst H1 H2 He.
  rewrite (updatePassword_typed t1 id u1 e st) by done. simpl.
  rewrite (updatePassword_typed t2 id (spread u1 u2) e st)
    by auto using spread_partial.
  erewrite updatePassword_found.
  - by rewrite spread_assoc, insert_insert_eq.
  - apply lookup_insert_eq.
  - rewrite !keyOf_spread by by apply partial_no_id. by eapply Hst.
Qed.

Lemma update_update_witness :
  updatePassword 70 "pwd_1_a" (objField "notes" "work")
    (updatePassword 60 "pwd_1_a" (objField "password" "n3w") sampleStore).2
  = updatePassword 70 "pwd_1_a"
      (spread (objField "password" "n3w") (objField "notes" "work")) sampleStore.
Proof.
  apply (update_update 60 70 "pwd_1_a" (objField "password" "n3w")
           (objField "notes" "work") (entry "pwd_1_a" "GitHub" "alice" 40)
           sampleStore);
    [apply sampleStore_keyed
    | apply objField_partial, password_not_assigned
    | apply objField_partial; by intros [?|[?|?]]
    | vm_refl].
Defined.

(** The record with the latest timestamp heads the listing. *)
Lemma newest_heads_listing (st : gmap string object) (k : string) (e : object) :
  st !! k = Some e →
  (∀ k' p, k' ≠ k → st !! k' = Some p → updatedTime p < updatedTime e) →
  ∃ rest, sort byUpdatedAtDesc (Idb.getAll st) = e :: rest.
Proof.
  intros He Hnew.
  pose proof (sort_newestFirst (Idb.getAll st)) as Hsorted.
  assert (e ∈ sort byUpdatedAtDesc (Idb.getAll st)) as Hin.
  { apply elem_of_listed. by exists k. }
  destruct (sort byUpdatedAtDesc (Idb.getAll st)) as [|h rest] eqn:E.
  { by apply elem_of_nil in Hin. }
  assert (h ∈ sort byUpdatedAtDesc (Idb.getAll st)) as Hh.
  { rewrite E. by left. }
  apply elem_of_listed in Hh as [k' Hk'].
  destruct (decide (k' = k)) as [->|Hne]; [exists rest; congruence|].
  exfalso. apply (Hnew _ _ Hne) in Hk'.
  apply elem_of_cons in Hin as [->|Hin]; [lia|].
  apply StronglySorted_inv in Hsorted as [_ Hall].
  rewrite Forall_forall in Hall. apply Hall in Hin. lia.
Qed.

(** X4: a record that is added or updated at a clock reading later than
    every timestamp of the store comes first in [getAllPasswords]. *)
Theorem newest_listed_first (now : Z) (st : gmap string object) :
  (∀ k p, st !! k = Some p → updatedTime p < now) →
  (∀ idNow suffix data,
     isPasswordInsert data → st !! generateId idNow suffix = None →
     ∃ r st' rest,
       addPassword now idNow suffix data st = (Resolved r, st') ∧
       getAllPasswords st' = Resolved (r :: rest)) ∧
  (∀ id updates e,
     keyed st → isPartialInsert updates → st !! id = Some e →
     ∃ r st' rest,
       updatePassword now id updates st = (Resolved r, st') ∧
       getAllPasswords st' = Resolved (r :: rest)).
Proof.
  intros Hclock. split.
  - intros idNow suffix data [Hdata _] Hfree. apply partial_no_id in Hdata.
    rewrite addPassword_free by done.
    edestruct newest_heads_listing as [rest Hrest]; last first.
    { do 3 eexists. split; [done|]. unfold getAllPasswords. by rewrite Hrest. }
    + intros k' p Hne. rewrite lookup_insert_ne by done. apply Hclock.
    + apply lookup_insert_eq.
  - intros id updates e Hst Hu He.
    rewrite (updatePassword_typed now id updates e st) by done.
    edestruct newest_heads_listing as [rest Hrest]; last first.
    { do 3 eexists. split; [done|]. unfold getAllPasswords. by rewrite Hrest. }
    + intros k' p Hne. rewrite lookup_insert_ne by done. apply Hclock.
    + apply lookup_insert_eq.
Qed.

Lemma sampleStore_before_60 (k : string) (p : object) :
  sampleStore !! k = Some p → updatedTime p < 60.
Proof.
  revert k p. apply (map_Forall_lookup (λ _ p, updatedTime p < 60)).
  apply (bool_decide_unpack _). by vm_compute.
Defined.

Lemma newest_listed_first_witness :
  ∃ r st' rest,
    updatePassword 60 "pwd_3_c" (objField "password" "n3w") sampleStore
      = (Resolved r, st') ∧
    getAllPasswords st' = Resolved (r :: rest).
Proof.
  apply (proj2 (newest_listed_first 60 sampleStore sampleStore_before_60)
           "pwd_3_c" (objField "password" "n3w")
           (entry "pwd_3_c" "Twitter" "carol" 30));
    [apply sampleStore_keyed
    | apply objField_partial, password_not_assigned
    | vm_refl].
Defined.

(** ** The order of the results *)

Lemma insertSorted_front (x : object) (l : list object) :
  Forall (λ z, updatedTime z ≤ updatedTime x) l →
  ∀ P `{!∀ p, Decision (P p)},
    insertSorted byUpdatedAtDesc x (filter P l) = x :: filter P l.
Proof.
  intros Hl P HP. induction Hl as [|y l Hy Hl IH]; [done|].
  rewrite filter_cons. case_decide; [|done]. simpl.
  unfold byUpdatedAtDesc at 1.
  destruct (Z.leb_spec (updatedTime y - updatedTime x) 0); [done | lia].
Qed.

Lemma filter_insertSorted (P : object → Prop) `{!∀ p, Decision (P p)}
    (x : object) (l : list object) :
  newestFirst l →
  filter P (insertSorted byUpdatedAtDesc x l)
  = if decide (P x) then insertSorted byUpdatedAtDesc x (filter P l)
    else filter P l.
Proof.
  induction l as [|y l IH]; intros Hl.
  - simpl. rewrite filter_cons, filter_nil. by case_decide.
  - apply StronglySorted_inv in Hl as [Hl Hy]. simpl.
    unfold byUpdatedAtDesc at 1.
    destruct (Z.leb_spec (updatedTime y - updatedTime x) 0) as [Hle|Hgt].
    + rewrite filter_cons. case_decide; [|done].
      rewrite insertSorted_front; [done|].
      constructor; [lia|]. eapply Forall_impl; [done|]. simpl. lia.
    + rewrite filter_cons, IH by done. rewrite (filter_cons _ y).
      destruct (decide (P y)), (decide (P x)); try done.
      simpl.
      destruct (Z.leb_spec (byUpdatedAtDesc x y) 0) as [Hle|_]; [|done].
      unfold byUpdatedAtDesc in Hle. lia.
Qed.

(** Filtering the listing is listing the filtered records. *)
Lemma filter_sort (P : object → Prop) `{!∀ p, Decision (P p)} (l : list object) :
  filter P (sort byUpdatedAtDesc l) = sort byUpdatedAtDesc (filter P l).
Proof.
  induction l as [|x l IH]; [done|]. simpl.
  rewrite filter_insertSorted by apply sort_newestFirst.
  rewrite filter_cons, IH. by case_decide.
Qed.

Lemma filter_sublist_impl {A} (P Q : A → Prop) `{!∀ x, Decision (P x)}
    `{!∀ x, Decision (Q x)} (l : list A) :
  (∀ x, x ∈ l → P x → Q x) → filter P l `sublist_of` filter Q l.
Proof.
  induction l as [|x l IH]; intros Himp; [done|].
  rewrite !filter_cons.
  assert (filter P l `sublist_of` filter Q l) as Hl.
  { apply IH. intros y Hy. apply Himp. by right. }
  destruct (decide (P x)) as [HP|HP], (decide (Q x)) as [HQ|HQ].
  - by apply sublist_skip.
  - destruct HQ. apply Himp; [by left | done].
  - by apply sublist_cons.
  - done.
Qed.

Section SearchOrder.
Context `{Strings}.

Lemma searchPasswords_filter_listing (q : string) (st : gmap string object) :
  allWhiteSpace q = false → searchableStore st →
  ∃ all, getAllPasswords st = Resolved all ∧
         searchPasswords q st =
           Resolved (filter (λ p, matchesBool (toLowerCase q) p) all) ∧
         filter (λ p, matchesBool (toLowerCase q) p) all `sublist_of` all.
Proof.
  intros Hq Hst. eexists. split; [done|]. split.
  - rewrite searchPasswords_filter by done. by rewrite filter_sort.
  - apply sublist_filter.
Qed.

(** X5: the result of a search is the result of [getAllPasswords] with the
    records that do not match left out: the records found keep the order
    they have in the full listing. *)
Theorem search_filters_listing (q : string) (st : gmap string object) :
  allWhiteSpace q = false → searchableStore st →
  ∃ all, getAllPasswords st = Resolved all ∧
         searchPasswords q st =
           Resolved (filter (λ p, matchesBool (toLowerCase q) p) all) ∧
         filter (λ p, matchesBool (toLowerCase q) p) all `sublist_of` all.
Proof. apply searchPasswords_filter_listing. Qed.


(** Containment of lower-cased forms composes. *)
Lemma containsCI_includes (s q q' : string) :
  containsCI s q → includes (toLowerCase q) (toLowerCase q') = true →
  containsCI s q'.
Proof.
  intros (a & b & Hs) (c & d & Hq)%includesUnits_spec.
  exists (a ++ c)%list, (d ++ b)%list. rewrite Hs, Hq.
  by rewrite <- !(assoc_L (++)%list).
Qed.

(** X7: a query narrows the search of any query that its lower-cased form
    includes: when [toLowerCase q] includes [toLowerCase q'] and [q] is not
    blank, the records found for [q] are among those found for [q'], in the
    same order. *)
Theorem search_narrows (q q' : string) (st : gmap string object) :
  allWhiteSpace q = false →
  includes (toLowerCase q) (toLowerCase q') = true →
  searchableStore st →
  ∃ l l', searchPasswords q st = Resolved l ∧
          searchPasswords q' st = Resolved l' ∧
          l `sublist_of` l'.
Proof.
  intros Hq Hqq Hst.
  destruct (searchPasswords_filter_listing q st Hq Hst) as (all & Hall & -> & Hsub).
  destruct (allWhiteSpace q') eqn:Hq'.
  - rewrite (searchPasswords_blank q') by done. by do 2 eexists.
  - destruct (searchPasswords_filter_listing q' st Hq' Hst)
      as (all' & Hall' & -> & _).
    assert (all' = all) as -> by congruence.
    do 2 eexists. split_and!; [done..|].
    apply filter_sublist_impl. intros p Hp Hm.
    assert (searchable p) as Hs.
    { injection Hall as <-. apply elem_of_listed in Hp as [k Hk].
      by eapply Hst. }
    apply Is_true_true. apply Is_true_true in Hm.
    apply matchesBool_CI in Hm; [|done]. apply matchesBool_CI; [done|].
    destruct Hm as [(s & Hs1 & Hc)|(u & Hu & Hc)];
      [left | right]; eexists; eauto using containsCI_includes.
Qed.

End SearchOrder.

Lemma insertSorted_listingOrder (x : string * object) (s : list (string * object)) :
  StronglySorted listingOrder s →
  Forall (λ z, String.le x.1 z.1) s →
  StronglySorted listingOrder
    (insertSorted (λ a b, byUpdatedAtDesc a.2 b.2) x s).
Proof.
  induction s as [|y s IH]; intros Hs Hx; simpl.
  - by repeat constructor.
  - apply StronglySorted_inv in Hs as [Hs Hy].
    apply Forall_cons in Hx as [Hxy Hx].
    destruct (Z.leb_spec (byUpdatedAtDesc x.2 y.2) 0) as [Hle|Hgt];
      unfold byUpdatedAtDesc in *.
    + constructor; [by constructor|]. constructor.
      * unfold listingOrder. destruct (decide (updatedTime y.2 = updatedTime x.2));
          [right; split; [lia | done] | left; lia].
      * rewrite Forall_forall in Hy, Hx. apply Forall_forall. intros z Hz.
        specialize (Hy z Hz). specialize (Hx z Hz). unfold listingOrder in *.
        destruct (decide (updatedTime z.2 = updatedTime x.2));
          [right; split; [lia | done] | left; lia].
    + constructor; [by apply IH|].
      rewrite insertSorted_Permutation. constructor; [|done].
      left. lia.
Qed.

Lemma sort_listingOrder (l : list (string * object)) :
  StronglySorted (λ a b : string * object, String.le a.1 b.1) l →
  StronglySorted listingOrder (sort (λ a b, byUpdatedAtDesc a.2 b.2) l).
Proof.
  induction l as [|x l IH]; intros Hl; simpl; [constructor|].
  apply StronglySorted_inv in Hl as [Hl Hx].
  apply insertSorted_listingOrder; [by apply IH|].
  by rewrite sort_Permutation.
Qed.

(** X8: [getAllPasswords] lists the records by [updatedAt], latest first,
    and records with equal [updatedAt] by ascending identifier: the stable
    sort keeps the key order of [store.getAll()] among them. *)
Theorem getAllPasswords_order (st : gmap string object) :
  ∃ bindings,
    bindings ≡ₚ map_to_list st ∧
    StronglySorted listingOrder bindings ∧
    getAllPasswords st = Resolved bindings.*2.
Proof.
  exists (sort (λ a b, byUpdatedAtDesc a.2 b.2)
            (merge_sort (λ a b : string * object, String.le a.1 b.1)
               (map_to_list st))).
  split_and!.
  - by rewrite sort_Permutation, merge_sort_Permutation.
  - apply sort_listingOrder.
    assert (Transitive (λ a b : string * object, String.le a.1 b.1)) as HT.
    { intros a b c. apply transitivity. }
    assert (Total (λ a b : string * object, String.le a.1 b.1)) as HTot.
    { intros a b. apply (base.total String.le). }
    apply (StronglySorted_merge_sort _).
  - unfold getAllPasswords, Idb.getAll. by rewrite sort_fmap.
Qed.

(** Two records with the same timestamp, the smaller identifier in front. *)
Example listing_ties :
  getAllPasswords
    (<["pwd_2_b" := entry "pwd_2_b" "gitlab" "bob" 40]>
       (<["pwd_1_a" := entry "pwd_1_a" "GitHub" "alice" 40]>
          (<["pwd_3_c" := entry "pwd_3_c" "Twitter" "carol" 40]> ∅)))
  = Resolved [entry "pwd_1_a" "GitHub" "alice" 40;
              entry "pwd_2_b" "gitlab" "bob" 40;
              entry "pwd_3_c" "Twitter" "carol" 40].
Proof. vm_refl. Qed.

(** ** Statistics and reset *)

Lemma listing_length (st : gmap string object) :
  length (sort byUpdatedAtDesc (Idb.getAll st)) = size st.
Proof.
  by rewrite sort_Permutation, getAll_Permutation, records_length.
Qed.

Lemma getStats_size (st : gmap string object) :
  getStats st =
    Resolved {| total := size st; hasPasswords := bool_decide (st ≠ ∅) |}.
Proof.
  unfold getStats, getAllPasswords. rewrite listing_length.
  do 2 f_equal. apply bool_decide_ext.
  rewrite <- map_size_non_empty_iff. lia.
Qed.

(** X9: [getStats] counts the records of the store, and [hasPasswords]
    tells whether there is one. *)
Theorem getStats_counts (st : gmap string object) :
  getStats st =
    Resolved {| total := size st; hasPasswords := bool_decide (st ≠ ∅) |}.
Proof. apply getStats_size. Qed.

(** X10: how the operations move the count of [getStats]: a successful
    add raises it by one, a delete of a stored identifier lowers it by one,
    a delete of any other identifier and an update leave it. *)
Theorem getStats_after (st : gmap string object) :
  (∀ now idNow suffix data,
     isPasswordInsert data → st !! generateId idNow suffix = None →
     getStats (addPassword now idNow suffix data st).2 =
       Resolved {| total := S (size st); hasPasswords := true |}) ∧
  (∀ id, is_Some (st !! id) →
     ∃ n, size st = S n ∧
          getStats (deletePassword id st).2 =
            Resolved {| total := n; hasPasswords := bool_decide (0 < n)%nat |}) ∧
  (∀ id, st !! id = None →
     getStats (deletePassword id st).2 = getStats st) ∧
  (∀ now id updates,
     keyed st → isPartialInsert updates →
     getStats (updatePassword now id updates st).2 = getStats st).
Proof.
  split_and!.
  - intros now idNow suffix data [Hdata _] Hfree. apply partial_no_id in Hdata.
    rewrite addPassword_free by done. rewrite getStats_size. simpl.
    rewrite map_size_insert_None by done. do 2 f_equal.
    apply bool_decide_eq_true. by apply insert_non_empty.
  - intros id [p Hp]. exists (size (delete id st)).
    split.
    { rewrite <- (insert_delete_id st id p Hp) at 1.
      by rewrite map_size_insert_None by apply lookup_delete_eq. }
    unfold getStats, getAllPasswords. simpl. unfold Idb.delete.
    by rewrite listing_length.
  - intros id Hid. simpl. unfold Idb.delete. by rewrite delete_id.
  - intros now id updates Hst Hu.
    destruct (st !! id) as [e|] eqn:He.
    + rewrite (updatePassword_typed now id updates e st) by done.
      rewrite !getStats_size. simpl.
      rewrite map_size_insert_Some by done. do 2 f_equal.
      apply bool_decide_ext. split; intros _.
      * intros ->. by rewrite lookup_empty in He.
      * by apply insert_non_empty.
    + by rewrite updatePassword_missing.
Qed.

Lemma getStats_after_witness :
  getStats (addPassword 999 1000 "k3j2h1g0f" (insertData "Mail" "dave" "s3cret")
              sampleStore).2
    = Resolved {| total := S (size sampleStore); hasPasswords := true |} ∧
  getStats (updatePassword 60 "pwd_1_a" (objField "password" "n3w") sampleStore).2
    = getStats sampleStore.
Proof.
  destruct (getStats_after sampleStore) as (Hadd & _ & _ & Hupd).
  split.
  - refine (Hadd 999 1000 "k3j2h1g0f" (insertData "Mail" "dave" "s3cret")
              (insertData_valid "Mail" "dave" "s3cret") _).
    vm_refl.
  - exact (Hupd 60 "pwd_1_a" (objField "password" "n3w") sampleStore_keyed
             (objField_partial "password" "n3w" password_not_assigned)).
Defined.

(** The counts of the specification's scenario: three adds and a delete,
    then the deletes of the other two. *)
Example getStats_scenario :
  getStats (run [Add 10 10 "a" (insertData "GitHub" "alice" "x");
                 Add 11 11 "b" (insertData "gitlab" "bob" "y");
                 Add 12 12 "c" (insertData "Twitter" "carol" "z");
                 Delete "pwd_11_b"] ∅)
    = Resolved {| total := 2; hasPasswords := true |} ∧
  getStats (run [Add 10 10 "a" (insertData "GitHub" "alice" "x");
                 Add 11 11 "b" (insertData "gitlab" "bob" "y");
                 Add 12 12 "c" (insertData "Twitter" "carol" "z");
                 Delete "pwd_11_b"; Delete "pwd_10_a"; Delete "pwd_12_c"] ∅)
    = Resolved {| total := 0; hasPasswords := false |}.
Proof. split; vm_refl. Qed.

Lemma searchPasswords_empty `{Strings} (q : string) :
  searchPasswords q ∅ = Resolved [].
Proof.
  unfold searchPasswords, getAllPasswords. rewrite getAll_empty.
  by destruct (negb (truthy (trim q))).
Qed.

(** X11: [clearAll] resolves and leaves the store empty: afterwards the
    listing and every search are empty, the count is zero, an update of any
    identifier is rejected as not found, and a second [clearAll] changes
    nothing. *)
Theorem clearAll_empties `{Strings} (st : gmap string object) :
  ∃ st',
    clearAll st = (Resolved (), st') ∧
    (∀ k, st' !! k = None) ∧
    getAllPasswords st' = Resolved [] ∧
    (∀ q, searchPasswords q st' = Resolved []) ∧
    getStats st' = Resolved {| total := 0; hasPasswords := false |} ∧
    (∀ now id updates,
       updatePassword now id updates st' = (Rejected NotFound, st')) ∧
    clearAll st' = (Resolved (), st').
Proof.
  exists ∅. split_and!.
  - done.
  - intros k. apply lookup_empty.
  - unfold getAllPasswords. by rewrite getAll_empty.
  - apply searchPasswords_empty.
  - rewrite getStats_size. by rewrite map_size_empty.
  - intros now id updates. apply updatePassword_missing, lookup_empty.
  - done.
Qed.

(** ** Reachable states *)

(** X12: a store that the operations have built from the empty one, with
    payloads of the declared types of which no update puts [undefined] in
    the place of the service or the user name, keeps every record under its
    own identifier and with the service and the user name that the search
    reads, so that every search resolves. *)
Theorem reachable_invariants `{Strings} (rs : list request) :
  Forall validRequest rs → Forall keepsSearchFieldsRequest rs →
  keyed (run rs ∅) ∧ searchableStore (run rs ∅) ∧
  ∀ q, ∃ l, searchPasswords q (run rs ∅) = Resolved l.
Proof.
  intros Hrs Hks.
  assert (searchableStore (run rs ∅)) as Hs.
  { apply (run_searchable rs ∅ Hrs Hks), map_Forall_empty. }
  split_and!; [apply run_keyed, map_Forall_empty | done |].
  intros q. destruct (allWhiteSpace q) eqn:Hq.
  - rewrite searchPasswords_blank by done. by eexists.
  - rewrite searchPasswords_filter by done. by eexists.
Qed.

(** * The manager: opening the database *)

Lemma ensureInitialized_open (storeName : string) (refused : bool) (s : Manager.state) :
  is_Some (Manager.db s) →
  Manager.ensureInitialized storeName refused s = (Manager.Fulfilled (), s).
Proof. intros [n Hn]. unfold Manager.ensureInitialized. by rewrite Hn. Qed.

(** Committing the records that the store has changes nothing. *)
Lemma commit_same (storeName : string) (s : Manager.state) (c : gmap string object) :
  Manager.objectStoreOf storeName s = Some c → Manager.commit storeName c s = s.
Proof.
  unfold Manager.objectStoreOf, Manager.commit. destruct s as [idb [n|]]; simpl; [|done].
  destruct (idb !! n) as [d|] eqn:Hd; simpl; [|done].
  destruct (Manager.objectStores d !! storeName) as [os|] eqn:Hos; simpl; [|done].
  intros [= <-]. f_equal. apply alter_id. intros d' Hd'.
  assert (d' = d) as -> by congruence. destruct d as [v stores]. simpl in *.
  f_equal. apply alter_id. intros os' Hos'.
  assert (os' = os) as -> by congruence. by destruct os.
Qed.

Lemma objectStoreOf_commit (storeName : string) (s : Manager.state) (c c' : gmap string object) :
  Manager.objectStoreOf storeName s = Some c →
  Manager.objectStoreOf storeName (Manager.commit storeName c' s) = Some c'.
Proof.
  unfold Manager.objectStoreOf, Manager.commit. destruct s as [idb [n|]]; simpl; [|done].
  rewrite lookup_alter_eq.
  destruct (idb !! n) as [d|] eqn:Hd; simpl; [|done].
  rewrite lookup_alter_eq.
  by destruct (Manager.objectStores d !! storeName) as [os|] eqn:Hos.
Qed.

(** An operation on a connection that is open and a store that exists. *)
Lemma onStore_open {A} (storeName : string) (refused : bool)
    (request : gmap string object → outcome A * gmap string object)
    (s : Manager.state) (c : gmap string object) :
  is_Some (Manager.db s) → Manager.objectStoreOf storeName s = Some c →
  Manager.onStore storeName refused request s
  = (Manager.settle (request c).1, Manager.commit storeName (request c).2 s).
Proof.
  intros Hdb Hc. unfold Manager.onStore.
  by rewrite ensureInitialized_open, Hc.
Qed.

(** X13: on a connection that is open, with the store in place, the
    operations of the manager are the operations on the records of the
    store: the reads answer from the records and leave the state as it is,
    the writes answer as on the records and put the new records in the
    store.  Whether the engine would still open the database is of no
    account. *)
Theorem manager_on_open_store `{Strings} (storeName : string) (refused : bool) (s : Manager.state)
    (c : gmap string object) :
  is_Some (Manager.db s) → Manager.objectStoreOf storeName s = Some c →
  Manager.getAllPasswords storeName refused s
    = (Manager.settle (getAllPasswords c), s) ∧
  (∀ q, Manager.searchPasswords storeName refused q s
        = (Manager.settle (searchPasswords q c), s)) ∧
  Manager.getStats storeName refused s = (Manager.settle (getStats c), s) ∧
  (∀ now idNow suffix data,
     ∃ s', Manager.addPassword storeName refused now idNow suffix data s
             = (Manager.settle (addPassword now idNow suffix data c).1, s') ∧
           Manager.objectStoreOf storeName s'
             = Some (addPassword now idNow suffix data c).2) ∧
  (∀ now id updates,
     ∃ s', Manager.updatePassword storeName refused now id updates s
             = (Manager.settle (updatePassword now id updates c).1, s') ∧
           Manager.objectStoreOf storeName s'
             = Some (updatePassword now id updates c).2) ∧
  (∀ id,
     ∃ s', Manager.deletePassword storeName refused id s
             = (Manager.Fulfilled (), s') ∧
           Manager.objectStoreOf storeName s' = Some (delete id c)) ∧
  (∃ s', Manager.clearAll storeName refused s = (Manager.Fulfilled (), s') ∧
         Manager.objectStoreOf storeName s' = Some ∅).
Proof.
  intros Hdb Hc.
  assert (Manager.getAllPasswords storeName refused s
          = (Manager.settle (getAllPasswords c), s)) as Hall.
  { unfold Manager.getAllPasswords. rewrite (onStore_open _ _ _ _ c) by done.
    simpl. by rewrite commit_same. }
  split_and!.
  - done.
  - intros q. unfold Manager.searchPasswords.
    destruct (negb (truthy (trim q))) eqn:Hq.
    + rewrite Hall. unfold searchPasswords. by rewrite Hq.
    + rewrite (onStore_open _ _ _ _ c) by done.
      cbn [fst snd]. by rewrite commit_same.
  - unfold Manager.getStats. by rewrite Hall.
  - intros now idNow suffix data. eexists. unfold Manager.addPassword.
    rewrite (onStore_open _ _ _ _ c) by done. split; [done|].
    by eapply objectStoreOf_commit.
  - intros now id updates. eexists. unfold Manager.updatePassword.
    rewrite (onStore_open _ _ _ _ c) by done. split; [done|].
    by eapply objectStoreOf_commit.
  - intros id. eexists. unfold Manager.deletePassword.
    rewrite (onStore_open _ _ _ _ c) by done. split; [done|].
    by eapply objectStoreOf_commit.
  - eexists. unfold Manager.clearAll.
    rewrite (onStore_open _ _ _ _ c) by done. split; [done|].
    by eapply objectStoreOf_commit.
Qed.

(** Every call of an operation is an instance of the frame [onStore]. *)
Lemma perform_onStore `{Strings} (storeName : string) (refused : bool) (c : Manager.call)
    (s : Manager.state) :
  ∃ (A : Type) (request : gmap string object → outcome A * gmap string object),
    Manager.perform storeName refused c s
    = (Manager.status (Manager.onStore storeName refused request s).1,
       (Manager.onStore storeName refused request s).2).
Proof.
  destruct c as [|q|now idNow suffix data|now id u|id| |]; simpl.
  - by eexists _, _.
  - unfold Manager.searchPasswords.
    destruct (negb (truthy (trim q))); by eexists _, _.
  - by eexists _, _.
  - by eexists _, _.
  - by eexists _, _.
  - exists (list object), (λ c, (getAllPasswords c, c)).
    unfold Manager.getStats, Manager.getAllPasswords.
    by destruct (Manager.onStore _ _ _ _) as [[l|f|] s1].
  - by eexists _, _.
Qed.

Lemma initialize_fresh (storeName : string) (s : Manager.state) :
  Manager.indexedDB s !! Manager.dbName = None →
  Manager.initialize storeName false s
  = (Manager.Fulfilled (),
     {| Manager.indexedDB :=
          <[Manager.dbName :=
              {| Manager.version := 1;
                 Manager.objectStores :=
                   {[ storeName :=
                        {| Manager.keyPath := "id";
                           Manager.indexes :=
                             {[ "service" := ("service", false);
                                "username" := ("username", false);
                                "updatedAt" := ("updatedAt", false) ]};
                           Manager.contents := ∅ |} ]} |}]>
            (Manager.indexedDB s);
        Manager.db := Some Manager.dbName |}).
Proof.
  intros Hd. unfold Manager.initialize, Manager.open. rewrite Hd. simpl.
  unfold Manager.onupgradeneeded. simpl. rewrite lookup_empty.
  case_decide as H; [by destruct H|]. simpl. by rewrite insert_empty.
Qed.

(** X14: the first operation in a browser that does not have the database
    opens it: the database is created at version 1 with the one object
    store, keyed by [id], with the three indexes, none of them unique, and
    no records; the listing, every search and the count answer for the empty
    store, and an add stores its record. *)
Theorem first_use `{Strings} (storeName : string) (s : Manager.state) :
  Manager.db s = None → Manager.indexedDB s !! Manager.dbName = None →
  ∃ s1,
    s1 = {| Manager.indexedDB :=
              <[Manager.dbName :=
                  {| Manager.version := 1;
                     Manager.objectStores :=
                       {[ storeName :=
                            {| Manager.keyPath := "id";
                               Manager.indexes :=
                                 {[ "service" := ("service", false);
                                    "username" := ("username", false);
                                    "updatedAt" := ("updatedAt", false) ]};
                               Manager.contents := ∅ |} ]} |}]>
                (Manager.indexedDB s);
            Manager.db := Some Manager.dbName |} ∧
    Manager.initialize storeName false s = (Manager.Fulfilled (), s1) ∧
    Manager.getAllPasswords storeName false s = (Manager.Fulfilled [], s1) ∧
    (∀ q, Manager.searchPasswords storeName false q s = (Manager.Fulfilled [], s1)) ∧
    Manager.getStats storeName false s
      = (Manager.Fulfilled {| total := 0; hasPasswords := false |}, s1) ∧
    (∀ now idNow suffix data,
       ∃ s2, Manager.addPassword storeName false now idNow suffix data s
               = (Manager.settle (addPassword now idNow suffix data ∅).1, s2) ∧
             Manager.objectStoreOf storeName s2
               = Some (addPassword now idNow suffix data ∅).2).
Proof.
  intros Hdb Hd. eexists. split; [done|].
  pose proof (initialize_fresh storeName s Hd) as Hinit.
  set (s1 := {| Manager.indexedDB := _; Manager.db := Some Manager.dbName |}) in *.
  assert (Manager.objectStoreOf storeName s1 = Some ∅) as Hc.
  { unfold Manager.objectStoreOf, s1. simpl. rewrite lookup_insert_eq. simpl.
    by rewrite lookup_singleton_eq. }
  assert (∀ A (request : gmap string object → outcome A * gmap string object),
            Manager.onStore storeName false request s
            = (Manager.settle (request ∅).1,
               Manager.commit storeName (request ∅).2 s1)) as Hon.
  { intros A request. unfold Manager.onStore, Manager.ensureInitialized.
    by rewrite Hdb, Hinit, Hc. }
  assert (Manager.getAllPasswords storeName false s = (Manager.Fulfilled [], s1))
    as Hall.
  { unfold Manager.getAllPasswords. rewrite Hon. simpl.
    unfold getAllPasswords. rewrite getAll_empty. simpl.
    by rewrite commit_same. }
  split_and!; [done | done | | |].
  - intros q. unfold Manager.searchPasswords.
    destruct (negb (truthy (trim q))) eqn:Hq; [done|].
    rewrite Hon. cbn [fst snd]. rewrite searchPasswords_empty. simpl.
    by rewrite commit_same.
  - unfold Manager.getStats. by rewrite Hall.
  - intros now idNow suffix data. eexists. unfold Manager.addPassword.
    rewrite Hon. split; [done|]. by eapply objectStoreOf_commit.
Qed.

(** X15: when the connection is not open and the database cannot be
    opened, because the engine refuses or because the database is already at
    a later version, every operation is rejected with the message of
    [initialize] and nothing changes; the connection stays closed, so the
    next operation tries again. *)
Theorem open_failure `{Strings} (storeName : string) (refused : bool) (s : Manager.state) :
  Manager.db s = None →
  refused = true ∨
    (∃ d, Manager.indexedDB s !! Manager.dbName = Some d ∧ 1 < Manager.version d) →
  ∀ c, Manager.perform storeName refused c s = (Manager.Failed Manager.CannotOpen, s).
Proof.
  intros Hdb Hfail c.
  assert (Manager.initialize storeName refused s
          = (Manager.Failed Manager.CannotOpen, s)) as Hinit.
  { unfold Manager.initialize, Manager.open.
    destruct Hfail as [->|(d & Hd & Hv)]; [done|].
    destruct refused; [done|]. rewrite Hd. simpl.
    unfold Manager.dbVersion. by destruct (Z.ltb_spec 1 (Manager.version d)); [|lia]. }
  destruct (perform_onStore storeName refused c s) as (A & request & ->).
  unfold Manager.onStore, Manager.ensureInitialized. by rewrite Hdb, Hinit.
Qed.

(** X16: [initialize] does not touch a store that is there: on a database
    that has the store it succeeds, leaves the records, the key path and the
    indexes of every store as they are and only opens the connection; and
    initializing again after a success changes nothing. *)
Theorem initialize_keeps_store (storeName : string) (s : Manager.state)
    (d : Manager.database) :
  Manager.indexedDB s !! Manager.dbName = Some d →
  is_Some (Manager.objectStores d !! storeName) →
  Manager.version d ≤ 1 →
  ∃ s1,
    Manager.initialize storeName false s = (Manager.Fulfilled (), s1) ∧
    Manager.db s1 = Some Manager.dbName ∧
    (∃ d1, Manager.indexedDB s1 !! Manager.dbName = Some d1 ∧
           Manager.version d1 = 1 ∧
           Manager.objectStores d1 = Manager.objectStores d) ∧
    (∀ name, name ≠ Manager.dbName →
             Manager.indexedDB s1 !! name = Manager.indexedDB s !! name) ∧
    Manager.initialize storeName false s1 = (Manager.Fulfilled (), s1).
Proof.
  intros Hd Hos Hv. unfold Manager.initialize, Manager.open. rewrite Hd. simpl.
  unfold Manager.dbVersion.
  destruct (Z.ltb_spec 1 (Manager.version d)) as [?|_]; [lia|].
  destruct (Z.ltb_spec (Manager.version d) 1) as [Hlt|Hge].
  - unfold Manager.onupgradeneeded. case_decide; [|done].
    eexists. split; [done|]. simpl. split_and!.
    + done.
    + eexists. by rewrite lookup_insert_eq.
    + intros name Hne. by rewrite lookup_insert_ne.
    + rewrite lookup_insert_eq. simpl. done.
  - assert (Manager.version d = 1) as Hv1 by lia.
    eexists. split; [done|]. simpl. split_and!.
    + done.
    + by exists d.
    + done.
    + rewrite Hd. simpl. rewrite Hv1. done.
Qed.

Lemma initialize_keeps_store_witness :
  ∃ s1,
    Manager.initialize "passwords" false
        (Manager.storedState "passwords" sampleStore None)
      = (Manager.Fulfilled (), s1) ∧
    Manager.objectStoreOf "passwords" s1 = Some sampleStore.
Proof.
  destruct (initialize_keeps_store "passwords"
              (Manager.storedState "passwords" sampleStore None)
              {| Manager.version := 1;
                 Manager.objectStores :=
                   {[ "passwords" :=
                        {| Manager.keyPath := "id";
                           Manager.indexes :=
                             {[ "service" := ("service", false);
                                "username" := ("username", false);
                                "updatedAt" := ("updatedAt", false) ]};
                           Manager.contents := sampleStore |} ]} |})
    as (s1 & H1 & Hdb & (d1 & Hd1 & _ & Hos) & _).
  - vm_refl.
  - apply (bool_decide_unpack _). by vm_compute.
  - simpl. lia.
  - exists s1. split; [done|].
    unfold Manager.objectStoreOf. rewrite Hdb. simpl. rewrite Hd1. simpl.
    rewrite Hos. vm_refl.
Defined.

(** X17: a database that is at version 1 without the store stays without
    it: the open succeeds and runs no upgrade, and every operation is
    rejected with the [NotFoundError] of [transaction]. *)
Theorem store_missing `{Strings} (storeName : string) (refused : bool) (s : Manager.state)
    (d : Manager.database) :
  Manager.indexedDB s !! Manager.dbName = Some d →
  Manager.version d = 1 →
  Manager.objectStores d !! storeName = None →
  Manager.db s = Some Manager.dbName ∨ (Manager.db s = None ∧ refused = false) →
  ∀ c, Manager.perform storeName refused c s
       = (Manager.Failed Manager.NotFoundError,
          {| Manager.indexedDB := Manager.indexedDB s;
             Manager.db := Some Manager.dbName |}).
Proof.
  intros Hd Hv Hos Hdb c.
  destruct (perform_onStore storeName refused c s) as (A & request & ->).
  unfold Manager.onStore, Manager.ensureInitialized.
  destruct Hdb as [Hdb|[Hdb ->]]; rewrite Hdb.
  - unfold Manager.objectStoreOf. rewrite Hdb. simpl. rewrite Hd. simpl.
    rewrite Hos. simpl. destruct s. simpl in *. by rewrite Hdb.
  - unfold Manager.initialize, Manager.open. rewrite Hd. simpl.
    rewrite Hv. simpl. unfold Manager.objectStoreOf. simpl.
    rewrite Hd. simpl. by rewrite Hos.
Qed.

Lemma sameElsewhere_refl (storeName : string) (s : Manager.state) :
  Manager.sameElsewhere storeName s s.
Proof.
  split; [done|]. intros d Hd. exists d. split_and!; [done | done |].
  intros os Hos. by exists os.
Qed.

Lemma sameElsewhere_trans (storeName : string) (s1 s2 s3 : Manager.state) :
  Manager.sameElsewhere storeName s1 s2 → Manager.sameElsewhere storeName s2 s3 →
  Manager.sameElsewhere storeName s1 s3.
Proof.
  intros [H1 H1'] [H2 H2']. split.
  - intros name Hne. by rewrite H2, H1.
  - intros d Hd. destruct (H1' d Hd) as (d2 & Hd2 & Ho1 & Hs1).
    destruct (H2' d2 Hd2) as (d3 & Hd3 & Ho2 & Hs2).
    exists d3. split_and!; [done | |].
    + intros other Hne. by rewrite Ho2, Ho1.
    + intros os Hos. destruct (Hs1 os Hos) as (os2 & Hos2 & Hk & Hi).
      destruct (Hs2 os2 Hos2) as (os3 & Hos3 & Hk' & Hi').
      exists os3. split_and!; [done | congruence | congruence].
Qed.

Lemma commit_sameElsewhere (storeName : string) (c : gmap string object)
    (s : Manager.state) :
  Manager.db s = None ∨ Manager.db s = Some Manager.dbName →
  Manager.sameElsewhere storeName s (Manager.commit storeName c s).
Proof.
  unfold Manager.commit. intros [Hdb|Hdb]; rewrite Hdb;
    [apply sameElsewhere_refl|].
  split; simpl.
  - intros name Hne. by rewrite lookup_alter_ne.
  - intros d Hd. rewrite lookup_alter_eq, Hd. simpl. eexists. split; [done|].
    simpl. split.
    + intros other Hne. by rewrite lookup_alter_ne.
    + intros os Hos. rewrite lookup_alter_eq, Hos. simpl. by eexists.
Qed.

Lemma ensureInitialized_sameElsewhere (storeName : string) (refused : bool)
    (s : Manager.state) :
  Manager.sameElsewhere storeName s
    (Manager.ensureInitialized storeName refused s).2 ∧
  (Manager.db s = None ∨ Manager.db s = Some Manager.dbName →
   Manager.db (Manager.ensureInitialized storeName refused s).2 = None ∨
   Manager.db (Manager.ensureInitialized storeName refused s).2
     = Some Manager.dbName).
Proof.
  unfold Manager.ensureInitialized.
  destruct (Manager.db s) as [n|] eqn:Hdb; simpl.
  { split; [apply sameElsewhere_refl | by rewrite Hdb]. }
  unfold Manager.initialize, Manager.open.
  destruct refused; simpl.
  { split; [apply sameElsewhere_refl | by rewrite Hdb; left]. }
  destruct (Z.ltb Manager.dbVersion _); simpl.
  { split; [apply sameElsewhere_refl | by rewrite Hdb; left]. }
  destruct (Z.ltb _ Manager.dbVersion); simpl; [|split; [|by right]].
  - split; [|by right]. split; simpl.
    + intros name Hne. by rewrite lookup_insert_ne.
    + intros d Hd. rewrite lookup_insert_eq, Hd. simpl. eexists. split; [done|].
      simpl. unfold Manager.onupgradeneeded.
      case_decide as Hos; simpl.
      * split; [done|]. intros os Hos'. by exists os.
      * split.
        -- intros other Hne. by rewrite lookup_insert_ne.
        -- intros os Hos'. destruct Hos. by exists os.
  - split; simpl; [done|]. intros d Hd. exists d. split_and!; [done | done |].
    intros os Hos. by exists os.
Qed.

(** X18: no operation touches anything but the records of its store: the
    other databases of the origin, the other object stores of the database,
    and the key path and the indexes of the store are after every call what
    they were before it, whatever the call and its outcome. *)
Theorem operations_frame `{Strings} (storeName : string) (refused : bool)
    (c : Manager.call) (s : Manager.state) :
  Manager.db s = None ∨ Manager.db s = Some Manager.dbName →
  Manager.sameElsewhere storeName s (Manager.perform storeName refused c s).2.
Proof.
  intros Hdb.
  destruct (perform_onStore storeName refused c s) as (A & request & ->).
  simpl. unfold Manager.onStore.
  destruct (ensureInitialized_sameElsewhere storeName refused s) as [Hsame Hconn].
  specialize (Hconn Hdb).
  destruct (Manager.ensureInitialized storeName refused s) as [[[]|f|] s1];
    simpl in *; [|done..].
  destruct (Manager.objectStoreOf storeName s1) as [c1|]; simpl; [|done].
  eapply sameElsewhere_trans; [done|]. by apply commit_sameElsewhere.
Qed.

(** ** The singleton *)

Lemma getInstance_again (cs : Manager.classState) :
  is_Some (Manager.instance (Manager.getInstance cs).2) ∧
  Manager.instance (Manager.getInstance cs).2 = Some (Manager.getInstance cs).1 ∧
  Manager.getInstance (Manager.getInstance cs).2 = Manager.getInstance cs.
Proof.
  unfold Manager.getInstance.
  destruct (Manager.instance cs) as [r|] eqn:E; simpl; [by rewrite E|done].
Qed.

(** X19: [getInstance] hands out one object: however often it is called,
    every call returns the same reference, the constructor runs at most
    once, and not at all when the instance exists. *)
Theorem getInstance_singleton (n : nat) (cs : Manager.classState) :
  (∀ r, r ∈ (Manager.getInstances n cs).1 → r = (Manager.getInstance cs).1) ∧
  (Manager.constructed (Manager.getInstances n cs).2
   ≤ S (Manager.constructed cs))%nat ∧
  (is_Some (Manager.instance cs) → (Manager.getInstances n cs).2 = cs).
Proof.
  revert cs. induction n as [|n IH]; intros cs.
  { simpl. split_and!; [by intros r ?%elem_of_nil | lia | done]. }
  simpl. destruct (Manager.getInstance cs) as [r cs1] eqn:E.
  destruct (IH cs1) as (Hall & Hcount & Hsame).
  destruct (Manager.getInstances n cs1) as [rs cs2] eqn:E2. simpl in *.
  pose proof (getInstance_again cs) as (Hsome & Hinst & Hagain).
  rewrite E in Hsome, Hinst, Hagain. simpl in *.
  specialize (Hsame Hsome). subst cs2.
  split_and!.
  - intros r' [->|Hr']%elem_of_cons; [done|].
    rewrite (Hall r' Hr'). by rewrite Hagain.
  - unfold Manager.getInstance in E.
    destruct (Manager.instance cs); injection E as <- <-; simpl; lia.
  - intros [r0 Hr0]. unfold Manager.getInstance in E. rewrite Hr0 in E.
    by injection E as <- <-.
Qed.

(** Three calls on the class as loaded. *)
Example getInstance_three :
  Manager.getInstances 3 {| Manager.instance := None; Manager.constructed := 0 |}
  = ([0; 0; 0]%nat, {| Manager.instance := Some 0%nat; Manager.constructed := 1 |}).
Proof. reflexivity. Qed.

(** * The list page *)

Lemma imap_index_only {A B C} (g : nat → C) (l1 : list A) (l2 : list B) :
  length l1 = length l2 → imap (λ i _, g i) l1 = imap (λ i _, g i) l2.
Proof.
  revert g l2. induction l1 as [|x l1 IH]; intros g [|y l2] Hlen; try done.
  simpl. f_equal. apply (IH (g ∘ S)). simpl in Hlen. lia.
Qed.

(** X20: the animation delays depend on the number of entries only, which
    is what the memo of the page is keyed on: two lists of the same length
    have the same delays, one delay for each entry, the one at position [i]
    being [min(i * ANIMATION_STAGGER_DELAY, MAX_ANIMATION_DELAY)] followed by
    [ms]. *)
Theorem animationDelays_length_only (stagger maxDelay : Z) {A B : Type}
    (passwords : list A) (passwords' : list B) :
  length passwords = length passwords' →
  Index.animationDelays stagger maxDelay passwords
    = Index.animationDelays stagger maxDelay passwords' ∧
  length (Index.animationDelays stagger maxDelay passwords) = length passwords ∧
  ∀ i, (i < length passwords)%nat →
       Index.animationDelays stagger maxDelay passwords !! i
       = Some (pretty (Z.min (Z.of_nat i * stagger) maxDelay) +:+ "ms").
Proof.
  intros Hlen. unfold Index.animationDelays. split_and!.
  - by apply imap_index_only.
  - apply length_imap.
  - intros i Hi. rewrite list_lookup_imap.
    destruct (lookup_lt_is_Some_2 passwords i Hi) as [x ->]. done.
Qed.

Lemma animationDelays_length_only_witness :
  Index.animationDelays 50 500 [entry "a" "GitHub" "alice" 1; entry "b" "gitlab" "bob" 2]
    = Index.animationDelays 50 500 ["x"; "y"] ∧
  length (Index.animationDelays 50 500
            [entry "a" "GitHub" "alice" 1; entry "b" "gitlab" "bob" 2]) = 2%nat ∧
  ∀ i, (i < 2)%nat →
       Index.animationDelays 50 500
         [entry "a" "GitHub" "alice" 1; entry "b" "gitlab" "bob" 2] !! i
       = Some (pretty (Z.min (Z.of_nat i * 50) 500) +:+ "ms").
Proof.
  apply (animationDelays_length_only 50 500
           [entry "a" "GitHub" "alice" 1; entry "b" "gitlab" "bob" 2] ["x"; "y"]).
  reflexivity.
Defined.

(** X21: with a stagger that is not negative the delays do not decrease
    along the list; they follow the stagger up to the cap and never exceed
    it. *)
Theorem animationDelays_capped (stagger maxDelay : Z) (i j : nat) :
  0 ≤ stagger → (i ≤ j)%nat →
  Index.delayAt stagger maxDelay i ≤ Index.delayAt stagger maxDelay j ∧
  Index.delayAt stagger maxDelay j ≤ maxDelay ∧
  (Z.of_nat i * stagger ≤ maxDelay →
   Index.delayAt stagger maxDelay i = Z.of_nat i * stagger) ∧
  (maxDelay ≤ Z.of_nat i * stagger →
   Index.delayAt stagger maxDelay j = maxDelay).
Proof.
  intros Hs Hij. unfold Index.delayAt.
  assert (Z.of_nat i * stagger ≤ Z.of_nat j * stagger) by nia.
  lia.
Qed.

Lemma animationDelays_capped_witness :
  Index.delayAt 50 500 3 ≤ Index.delayAt 50 500 20 ∧
  Index.delayAt 50 500 20 ≤ 500 ∧
  (Z.of_nat 3 * 50 ≤ 500 → Index.delayAt 50 500 3 = Z.of_nat 3 * 50) ∧
  (500 ≤ Z.of_nat 3 * 50 → Index.delayAt 50 500 20 = 500).
Proof. apply (animationDelays_capped 50 500 3 20); lia. Defined.

(** Twelve entries with a stagger of 50 and a cap of 500. *)
Example animationDelays_twelve :
  Index.animationDelays 50 500 (replicate 12 ())
  = ["0ms"; "50ms"; "100ms"; "150ms"; "200ms"; "250ms"; "300ms"; "350ms";
     "400ms"; "450ms"; "500ms"; "500ms"].
Proof. vm_refl. Qed.


(** * Examples *)

(** The examples and the instances of the theorems are on the strings over
    the code units below 256, with their own case mapping and white
    space. *)
#[local] Existing Instance latin1.

(** ** Searching *)

Lemma search_blank_is_listAll_witness :
  searchPasswords "" sampleStore = getAllPasswords sampleStore ∧
  searchPasswords ("  " +:+ unitString 9 +:+ unitString 160) sampleStore
    = getAllPasswords sampleStore.
Proof.
  split; [exact (proj1 (search_blank_is_listAll sampleStore))|].
  apply (proj2 (search_blank_is_listAll sampleStore)). reflexivity.
Defined.

(** The query made of a NO-BREAK SPACE lists every record. *)
Example search_no_break_space :
  searchPasswords (unitString 160) sampleStore
  = Resolved [entry "pwd_2_b" "gitlab" "bob" 50;
              entry "pwd_1_a" "GitHub" "alice" 40;
              entry "pwd_3_c" "Twitter" "carol" 30].
Proof. vm_refl. Qed.

Lemma sampleStore_searchable : searchableStore sampleStore.
Proof. apply (bool_decide_unpack _). by vm_compute. Defined.

Lemma search_returns_matches_witness :
  ∃ l rest, searchPasswords "git" sampleStore = Resolved l ∧
            l ++ rest ≡ₚ records sampleStore ∧
            Forall (matchesCI "git") l ∧
            Forall (λ p, ¬ matchesCI "git" p) rest ∧
            newestFirst l.
Proof.
  apply (search_returns_matches "git" sampleStore);
    [reflexivity | apply sampleStore_searchable].
Defined.

(** The example of the specification: of GitHub, gitlab and Twitter, the
    query [git] finds the first two, the one updated last in front. *)
Example search_git :
  searchPasswords "git" sampleStore =
    Resolved [entry "pwd_2_b" "gitlab" "bob" 50; entry "pwd_1_a" "GitHub" "alice" 40].
Proof. vm_refl. Qed.

(** The query [école] (U+00E9) finds the service [ÉCOLE]. *)
Example search_accented :
  searchPasswords (unitString 233 +:+ "cole") accentedStore
  = Resolved [entry "pwd_2_b" (unitString 201 +:+ "COLE") "bob" 50].
Proof. vm_refl. Qed.

Lemma objUndefined_partial (f : string) :
  ¬ assigned f → isPartialInsert (objUndefined f).
Proof.
  intros Hf. split; [|done]. intros g Hg. simpl.
  apply lookup_singleton_ne. by intros ->.
Defined.

(** C1 as stated fails: after an update of the declared type that puts
    [undefined] in the place of the service, the store holds a record
    without a service, and the search of a query that is not blank does not
    settle: it returns no records. *)
Lemma search_never_settles :
  Forall validRequest undefinedService ∧
  run undefinedService ∅
    = {[ "pwd_10_a" :=
           {| props := <["service" := None]>
                         (strings {[ "id" := "pwd_10_a"; "username" := "alice";
                                     "password" := "x" ]});
              createdAt := Some 10; updatedAt := Some 11 |} ]} ∧
  allWhiteSpace "git" = false ∧
  searchPasswords "git" (run undefinedService ∅) = Pending.
Proof.
  split_and!.
  - apply Forall_cons. split; [apply insertData_valid|].
    apply Forall_cons. split; [|apply Forall_nil_2].
    apply objUndefined_partial. by intros [?|[?|?]].
  - vm_refl.
  - reflexivity.
  - vm_refl.
Qed.



(** The query [" git"] finds the service ["my git"] and not the service
    ["git"], which the trimmed query would find as well. *)
Example search_leading_space :
  searchPasswords " git" spacedStore = Resolved [entry "pwd_2_b" "my git" "bob" 50] ∧
  searchPasswords "git" spacedStore =
    Resolved [entry "pwd_2_b" "my git" "bob" 50; entry "pwd_1_a" "git" "alice" 40].
Proof. split; vm_refl. Qed.

Lemma search_filters_listing_witness :
  ∃ all, getAllPasswords sampleStore = Resolved all ∧
         searchPasswords "git" sampleStore =
           Resolved (filter (λ p, matchesBool (toLowerCase "git") p) all) ∧
         filter (λ p, matchesBool (toLowerCase "git") p) all `sublist_of` all.
Proof.
  apply (search_filters_listing "git" sampleStore);
    [reflexivity | apply sampleStore_searchable].
Defined.


Lemma search_narrows_witness :
  ∃ l l', searchPasswords "gitl" sampleStore = Resolved l ∧
          searchPasswords "Git" sampleStore = Resolved l' ∧
          l `sublist_of` l'.
Proof.
  apply (search_narrows "gitl" "Git" sampleStore);
    [reflexivity | reflexivity | apply sampleStore_searchable].
Defined.

Lemma reachable_invariants_witness :
  keyed (run [Add 10 10 "a" (insertData "GitHub" "alice" "x");
              Update 11 "pwd_10_a" (objField "password" "y")] ∅) ∧
  searchableStore (run [Add 10 10 "a" (insertData "GitHub" "alice" "x");
                        Update 11 "pwd_10_a" (objField "password" "y")] ∅) ∧
  ∀ q, ∃ l, searchPasswords q
              (run [Add 10 10 "a" (insertData "GitHub" "alice" "x");
                    Update 11 "pwd_10_a" (objField "password" "y")] ∅)
            = Resolved l.
Proof.
  apply (reachable_invariants
           [Add 10 10 "a" (insertData "GitHub" "alice" "x");
            Update 11 "pwd_10_a" (objField "password" "y")]).
  - repeat constructor; try apply insertData_valid.
    apply objField_partial, password_not_assigned.
  - repeat constructor; simpl; by rewrite lookup_singleton_ne.
Defined.

(** ** The manager *)

Lemma manager_on_open_store_witness :
  Manager.getAllPasswords "passwords" true
      (Manager.storedState "passwords" sampleStore (Some Manager.dbName))
    = (Manager.settle (getAllPasswords sampleStore),
       Manager.storedState "passwords" sampleStore (Some Manager.dbName)).
Proof.
  apply (manager_on_open_store "passwords" true
           (Manager.storedState "passwords" sampleStore (Some Manager.dbName))
           sampleStore); [by eexists | vm_refl].
Defined.

Lemma first_use_witness :
  Manager.getAllPasswords "passwords" false Manager.freshState
  = (Manager.Fulfilled [],
     Manager.storedState "passwords" ∅ (Some Manager.dbName)).
Proof.
  destruct (first_use "passwords" Manager.freshState) as (s1 & -> & _ & H & _);
    [reflexivity | reflexivity |].
  rewrite H. vm_refl.
Defined.

Lemma open_failure_witness :
  Manager.perform "passwords" true Manager.GetAll
      (Manager.storedState "passwords" sampleStore None)
  = (Manager.Failed Manager.CannotOpen,
     Manager.storedState "passwords" sampleStore None).
Proof.
  apply (open_failure "passwords" true
           (Manager.storedState "passwords" sampleStore None));
    [reflexivity | by left].
Defined.

Lemma store_missing_witness :
  Manager.perform "passwords" false Manager.GetAll
      (Manager.storedState "vault" sampleStore None)
  = (Manager.Failed Manager.NotFoundError,
     {| Manager.indexedDB :=
          Manager.indexedDB (Manager.storedState "vault" sampleStore None);
        Manager.db := Some Manager.dbName |}).
Proof.
  apply (store_missing "passwords" false
           (Manager.storedState "vault" sampleStore None)
           {| Manager.version := 1;
              Manager.objectStores :=
                {[ "vault" :=
                     {| Manager.keyPath := "id";
                        Manager.indexes :=
                          {[ "service" := ("service", false);
                             "username" := ("username", false);
                             "updatedAt" := ("updatedAt", false) ]};
                        Manager.contents := sampleStore |} ]} |});
    [vm_refl | reflexivity | vm_refl | by right].
Defined.

Lemma operations_frame_witness :
  Manager.sameElsewhere "passwords"
    (Manager.storedState "passwords" sampleStore None)
    (Manager.perform "passwords" false Manager.ClearAll
       (Manager.storedState "passwords" sampleStore None)).2.
Proof.
  apply (operations_frame "passwords" false Manager.ClearAll
           (Manager.storedState "passwords" sampleStore None)).
  by left.
Defined.

